(** * CSV_to_Actionable_Insights: the statistical core

    A shallow embedding of [bin/differential_expression.py] (Welch test per
    gene, Benjamini-Hochberg correction, final sort) and of
    [bin/preprocess_counts.py] (sample alignment, symbol remap, log2-CPM),
    with the properties the specification states about them.

    Numbers.  The scripts compute in NumPy [float64].  Every definition below
    is written once, over an interface [Number] of the operations the code
    uses, and is run at two instances:
    - [binary64]: Rocq's primitive IEEE-754 binary64 floats, whose operations
      round as NumPy's do and have the same NaN, infinities and signed zeros;
    - [exact]: the rationals [Q], exact and without NaN, the reading under
      which the specification's closed formulas are meant.
    What follows from the shape of the code alone is proved for every
    arithmetic; what needs the order of the numbers, for every arithmetic
    obeying [OrderLaws], which both instances do; what needs field
    identities, at [exact]; what hangs on rounding or on NaN is evaluated at
    [binary64].

    Library calls.  [np.argsort] and [DataFrame.sort_values] run with the
    default [kind="quicksort"], which fixes no order among equal keys: the
    sorting routine is a parameter constrained by [is_argsort].  [np.sqrt],
    [np.log2] and the tail probability of Student's t are parameters too. *)

From Stdlib Require Import Floats.
From Stdlib Require Import String Ascii.
From Stdlib Require Import List Bool Arith ZArith QArith Qabs Lia Lqa.
From Stdlib Require Import Permutation Sorted RelationClasses.
From Stdlib Require Uint63.
Import ListNotations.
Close Scope Q_scope.

(** ** Numbers *)

Class Number (F : Type) := {
  of_Z : Z -> F;                 (* conversion of a Python/NumPy integer *)
  fadd : F -> F -> F;
  fsub : F -> F -> F;
  fmul : F -> F -> F;
  fdiv : F -> F -> F;
  fabs : F -> F;
  fneg : F -> F;
  fleb : F -> F -> bool;         (* x <= y, false when either is NaN *)
  fltb : F -> F -> bool;         (* x <  y, false when either is NaN *)
  isnan : F -> bool
}.

Declare Scope num_scope.
Delimit Scope num_scope with num.
Infix "+" := fadd : num_scope.
Infix "-" := fsub : num_scope.
Infix "*" := fmul : num_scope.
Infix "/" := fdiv : num_scope.
Infix "<=?" := fleb : num_scope.
Infix "<?" := fltb : num_scope.

(** Exact rationals: no NaN, every comparison decided by [Qle_bool]. *)
#[export] Instance exact : Number Q := {
  of_Z := inject_Z;
  fadd := Qplus;
  fsub := Qminus;
  fmul := Qmult;
  fdiv := Qdiv;
  fabs := Qabs;
  fneg := Qopp;
  fleb := Qle_bool;
  fltb := fun x y => negb (Qle_bool y x);
  isnan := fun _ => false
}.

(** IEEE-754 binary64.  Integers met by the code are far below 2^53, so the
    conversion is exact. *)
Definition float_of_Z (z : Z) : PrimFloat.float :=
  match z with
  | Zneg p => PrimFloat.opp (PrimFloat.of_uint63 (Uint63.of_Z (Zpos p)))
  | _ => PrimFloat.of_uint63 (Uint63.of_Z z)
  end.

#[export] Instance binary64 : Number PrimFloat.float := {
  of_Z := float_of_Z;
  fadd := PrimFloat.add;
  fsub := PrimFloat.sub;
  fmul := PrimFloat.mul;
  fdiv := PrimFloat.div;
  fabs := PrimFloat.abs;
  fneg := PrimFloat.opp;
  fleb := PrimFloat.leb;
  fltb := PrimFloat.ltb;
  isnan := PrimFloat.is_nan
}.

(** ** The NumPy operations used by the scripts *)

Section numpy.
Context {F : Type} {num : Number F}.
Local Open Scope num_scope.

(** [np.minimum]: the left operand wins on ties and a NaN on either side is
    returned. *)
Definition minimum (a b : F) : F := if (a <=? b) || isnan a then a else b.

(** [np.clip(x, lo, hi)] with scalar bounds that are not NaN, as NumPy's
    clip loop has it: [if (x < lo) x = lo; if (x > hi) x = hi].  Both tests
    fail on a NaN, which is kept, and on a zero of either sign against a
    bound of zero, so that [-0.0] is kept too. *)
Definition clip (x lo hi : F) : F :=
  let m := if x <? lo then lo else x in
  if hi <? m then hi else m.

(** [a[idx]] for an index array [idx] (fancy indexing). *)
Definition take (a : list F) (idx : list nat) : list F :=
  map (fun i => nth i a (of_Z 0)) idx.

(** [np.empty(n)]: the content is unspecified; every cell is overwritten
    before it is read. *)
Definition empty (n : nat) : list F := repeat (of_Z 0) n.

(** [ufunc.accumulate]: running reduction from the left. *)
Fixpoint accumulate_from (f : F -> F -> F) (acc : F) (a : list F) : list F :=
  match a with
  | [] => []
  | x :: a' => let acc' := f acc x in acc' :: accumulate_from f acc' a'
  end.

Definition accumulate (f : F -> F -> F) (a : list F) : list F :=
  match a with
  | [] => []
  | x :: a' => x :: accumulate_from f x a'
  end.

(** The order [np.argsort] sorts by: ascending, NaN after every number. *)
Definition sort_le (x y : F) : bool := (x <=? y) || isnan y.

Fixpoint is_sorted (a : list F) : bool :=
  match a with
  | [] => true
  | x :: a' =>
      match a' with
      | [] => true
      | y :: _ => sort_le x y && is_sorted a'
      end
  end.

End numpy.

(** [a[i] = v]; out of range NumPy raises [IndexError], which the index
    arrays built by [argsort] never trigger: the model leaves [a] alone. *)
Fixpoint set_item {A : Type} (a : list A) (i : nat) (v : A) : list A :=
  match a, i with
  | [], _ => []
  | _ :: a', O => v :: a'
  | x :: a', S i' => x :: set_item a' i' v
  end.

(** [a[idx] = vals]: assignments in index order. *)
Definition put {A : Type} (a : list A) (idx : list nat) (vals : list A) : list A :=
  fold_left (fun acc iv => set_item acc (fst iv) (snd iv)) (combine idx vals) a.

(** [np.arange(a, b)] on integers. *)
Definition arange (a b : nat) : list nat := seq a (b - a).

(** [idx] holds each of [0 .. n-1] exactly once. *)
Definition is_index_permutation (idx : list nat) (n : nat) : bool :=
  (length idx =? n) && forallb (fun i => existsb (Nat.eqb i) idx) (seq 0 n).

(** What [np.argsort(a)] guarantees whatever the sorting kind: an index
    permutation that puts [a] in ascending order. *)
Definition is_argsort {F : Type} {num : Number F} (a : list F) (order : list nat) : bool :=
  is_index_permutation order (length a) && is_sorted (take a order).

(** ** [benjamini_hochberg] (differential_expression.py, lines 10-22) *)

Section benjamini_hochberg.
Context {F : Type} {num : Number F}.
Variable argsort : list F -> list nat.
Local Open Scope num_scope.

Definition benjamini_hochberg (p_values : list F) : list F :=
  let n := length p_values in
  let order := argsort p_values in
  let ranks := put (repeat O n) order (arange 1 (n + 1)) in
  let adjusted :=
    map (fun pr => fst pr * of_Z (Z.of_nat n) / of_Z (Z.of_nat (snd pr)))
        (combine p_values ranks) in
  let adjusted := rev (accumulate minimum (rev (take adjusted order))) in
  let adjusted := map (fun x => clip x (of_Z 0) (of_Z 1)) adjusted in
  put (empty n) order adjusted.

End benjamini_hochberg.

(** A stable argsort (insertion sort on indices), one admissible behaviour of
    [np.argsort]; and one that reverses ties, equally admissible. *)
Section argsorts.
Context {F : Type} {num : Number F}.

Fixpoint insert_index (a : list F) (i : nat) (l : list nat) : list nat :=
  match l with
  | [] => [i]
  | j :: l' =>
      if sort_le (nth i a (of_Z 0)) (nth j a (of_Z 0))
      then i :: l
      else j :: insert_index a i l'
  end.

Definition argsort_stable (a : list F) : list nat :=
  fold_right (insert_index a) [] (seq 0 (length a)).

Fixpoint insert_index_after (a : list F) (i : nat) (l : list nat) : list nat :=
  match l with
  | [] => [i]
  | j :: l' =>
      if sort_le (nth j a (of_Z 0)) (nth i a (of_Z 0))
      then j :: insert_index_after a i l'
      else i :: l
  end.

Definition argsort_reversing_ties (a : list F) : list nat :=
  fold_right (insert_index_after a) [] (seq 0 (length a)).

End argsorts.

(** The specification's wording of the correction, on the p-values already
    in ascending order: the candidate of rank [k] (1-indexed) out of [n] is
    [p * n / k]; the cumulative minimum runs from the largest rank down, each
    value the minimum of the next-higher-rank value and its own candidate. *)
Section step_up.
Context {F : Type} {num : Number F}.
Local Open Scope num_scope.

Definition candidates (n : nat) (sorted_p : list F) : list F :=
  map (fun kp => snd kp * of_Z (Z.of_nat n) / of_Z (Z.of_nat (fst kp)))
      (combine (seq 1 (length sorted_p)) sorted_p).

Fixpoint step_up (c : list F) : list F :=
  match c with
  | [] => []
  | x :: c' =>
      match step_up c' with
      | [] => [x]
      | (y :: _) as r => minimum y x :: r
      end
  end.

Definition clip01 (x : F) : F := clip x (of_Z 0) (of_Z 1).

End step_up.

(** ** Order laws

    What the monotonicity of the correction rests on: away from NaN, [<=?]
    is a total preorder, [<?] is its strict part, and 0 lies strictly below
    1.  Both [exact] and [binary64] satisfy them. *)
Record OrderLaws (F : Type) (num : Number F) : Prop := {
  leb_refl : forall x : F, isnan x = false -> fleb x x = true;
  leb_total : forall x y : F, isnan x = false -> isnan y = false ->
                fleb x y = false -> fleb y x = true;
  leb_trans : forall x y z : F, fleb x y = true -> fleb y z = true -> fleb x z = true;
  ltb_leb : forall x y : F, isnan x = false -> isnan y = false ->
              fltb x y = negb (fleb y x);
  zero_not_nan : isnan (of_Z 0) = false;
  one_not_nan : isnan (of_Z 1) = false;
  zero_le_one : fleb (of_Z 0) (of_Z 1) = true;
  one_not_le_zero : fleb (of_Z 1) (of_Z 0) = false
}.

Definition not_nan {F : Type} {num : Number F} (x : F) : Prop := isnan x = false.

Definition fle {F : Type} {num : Number F} (x y : F) : Prop := fleb x y = true.

(** An order embedding of the binary64 values other than NaN into triples
    of integers compared lexicographically: sign class, exponent, mantissa. *)
Definition sf_key (x : spec_float) : Z * Z * Z :=
  match x with
  | S754_nan => (0, 0, 0)%Z
  | S754_infinity true => (-2, 0, 0)%Z
  | S754_infinity false => (2, 0, 0)%Z
  | S754_zero _ => (0, 0, 0)%Z
  | S754_finite true m e => (-1, - e, Zneg m)%Z
  | S754_finite false m e => (1, e, Zpos m)%Z
  end.

Definition key_le (a b : Z * Z * Z) : Prop :=
  let '(a1, a2, a3) := a in
  let '(b1, b2, b3) := b in
  (a1 < b1 \/ (a1 = b1 /\ (a2 < b2 \/ (a2 = b2 /\ a3 <= b3))))%Z.

Definition sf_is_nan (x : spec_float) : bool :=
  match x with
  | S754_nan => true
  | _ => false
  end.

(** ** Exceptions *)

Open Scope string_scope.

(** [KeyError key] is what [frame[key]] raises on a label that is no column.
    [frame[names]] with a list raises a [KeyError] too, whose message pandas
    builds from two lists of labels: all the requested ones when none of them
    is a column ("None of [Index([...])] are in the [columns]"), those that
    are absent, each once, otherwise ("[...] not in index").  It is recorded
    as [KeyErrorLabels] with both lists. *)
Inductive exception :=
| ValueError (msg : string)
| KeyError (key : string)
| KeyErrorLabels (requested absent : list string).

Inductive result (A : Type) :=
| Ok (a : A)
| Raise (e : exception).
Arguments Ok {A} a.
Arguments Raise {A} e.

Definition bind {A B : Type} (r : result A) (k : A -> result B) : result B :=
  match r with
  | Ok a => k a
  | Raise e => Raise e
  end.

Notation "x <- r ;; k" := (bind r (fun x => k))
  (at level 61, r at next level, right associativity).

(** ** Tables, as [pd.read_csv] hands them over

    A counts table is its header and its rows; a row is split into the cell
    of the [gene_id] column and the numeric cells of the other columns, in
    header order.  [read_csv] makes column names unique.  Of the metadata
    only the header and the two columns the scripts read are kept, their
    cells as text. *)

Record Row (F : Type) := { label : string; cells : list F }.
Arguments label {F} r.
Arguments cells {F} r.

Record CountsFrame (F : Type) := { columns : list string; rows : list (Row F) }.
Arguments columns {F} c.
Arguments rows {F} c.

Record MetaRow := { sample_id : string; condition : string }.

Record Metadata := { md_columns : list string; md_rows : list MetaRow }.

Definition mem (s : string) (l : list string) : bool := existsb (String.eqb s) l.

Definition is_nil {A : Type} (l : list A) : bool :=
  match l with
  | [] => true
  | _ :: _ => false
  end.

(** [Series.unique()]: distinct values in order of first appearance. *)
Fixpoint unique (l : list string) : list string :=
  match l with
  | [] => []
  | x :: l' => x :: filter (fun y => negb (String.eqb y x)) (unique l')
  end.

(** [metadata.loc[metadata["condition"] == c, "sample_id"].tolist()] *)
Definition samples_of (metadata : Metadata) (c : string) : list string :=
  map sample_id (filter (fun r => String.eqb (condition r) c) (md_rows metadata)).

(** [[s for s in samples if s not in counts.columns]] *)
Definition missing_from (cols samples : list string) : list string :=
  filter (fun s => negb (mem s cols)) samples.

Fixpoint index_of (s : string) (l : list string) : option nat :=
  match l with
  | [] => None
  | x :: l' => if String.eqb x s then Some O
               else match index_of s l' with
                    | Some i => Some (S i)
                    | None => None
                    end
  end.

(** Columns left once [gene_id] has become the index. *)
Definition data_columns (cols : list string) : list string :=
  filter (fun c => negb (String.eqb c "gene_id")) cols.

Definition position (cols : list string) (s : string) : nat :=
  match index_of s cols with
  | Some i => i
  | None => O
  end.

(** The positions of [names] among [cols], or the [KeyError] of list
    indexing when some name is absent. *)
Definition locate (cols names : list string) : result (list nat) :=
  let absent := missing_from cols names in
  if is_nil absent then Ok (map (position cols) names)
  else Raise (KeyErrorLabels names (unique absent)).

Section frames.
Context {F : Type} {num : Number F}.

(** [counts.set_index("gene_id")[names]]: the named columns, in the order of
    [names]; [KeyError] when a name is not a column of the indexed frame. *)
Definition select_cells (idx : list nat) (r : Row F) : Row F :=
  {| label := label r; cells := take (cells r) idx |}.

Definition getitem (counts : CountsFrame F) (names : list string)
  : result (list (Row F)) :=
  idx <- locate (data_columns (columns counts)) names ;;
  Ok (map (select_cells idx) (rows counts)).

(** [frame.loc[gene]] on a frame whose labels are unique. *)
Definition loc (frame : list (Row F)) (gene : string) : list F :=
  match find (fun r => String.eqb (label r) gene) frame with
  | Some r => cells r
  | None => []
  end.

(** [np.add.reduce] over a contiguous float64 array, the sum behind
    [ndarray.mean]: NumPy's pairwise summation.  Fewer than 8 cells are
    added left to right; up to 128 cells are added into 8 running sums, one
    per position modulo 8, which are then combined as a tree and followed by
    the cells left over; longer arrays are split in two halves, the first a
    multiple of 8 long.  The reduction starts from the identity 0. *)
Definition add_into (r block : list F) : list F :=
  map (fun rb => fst rb + snd rb)%num (combine r block).

Fixpoint accumulate_blocks (blocks : nat) (r a : list F) : list F * list F :=
  match blocks with
  | O => (r, a)
  | S k => accumulate_blocks k (add_into r (firstn 8 a)) (skipn 8 a)
  end.

Definition tree8 (r : list F) : F :=
  match r with
  | [r0; r1; r2; r3; r4; r5; r6; r7] =>
      (((r0 + r1) + (r2 + r3)) + ((r4 + r5) + (r6 + r7)))%num
  | _ => of_Z 0
  end.

Fixpoint pairwise_sum (fuel : nat) (a : list F) : F :=
  let n := length a in
  if Nat.ltb n 8 then fold_left fadd a (of_Z 0)
  else if Nat.leb n 128 then
    let '(r, rest) := accumulate_blocks (n / 8 - 1) (firstn 8 a) (skipn 8 a) in
    fold_left fadd rest (tree8 r)
  else
    match fuel with
    | O => of_Z 0
    | S fuel' =>
        let half := n / 2 in
        let n2 := half - half mod 8 in
        (pairwise_sum fuel' (firstn n2 a) + pairwise_sum fuel' (skipn n2 a))%num
    end.

Definition sum (a : list F) : F :=
  (of_Z 0 + pairwise_sum (length a) a)%num.

(** [ndarray.mean]: the sum over the number of cells. *)
Definition mean (a : list F) : F :=
  (sum a / of_Z (Z.of_nat (length a)))%num.

(** The sample variance as SciPy's [_var(a, ddof=1)] computes it for
    [ttest_ind]: the mean of the squared deviations from the mean, scaled by
    [n / (n - 1)]. *)
Definition var (a : list F) : F :=
  let m := mean a in
  let n := Z.of_nat (length a) in
  (mean (map (fun x => (x - m) * (x - m)) a) * (of_Z n / of_Z (n - 1)))%num.

End frames.

(** ** [scipy.stats.ttest_ind(a, b, equal_var=False)]: the p-value

    Welch's statistic and the Welch-Satterthwaite degrees of freedom are
    computed as SciPy does; [sqrt] is [np.sqrt] and [t_two_sided df t] stands
    for the two-sided tail probability of Student's t at [t >= 0], which like
    every SciPy special function returns NaN on a NaN statistic. *)
Section ttest.
Context {F : Type} {num : Number F}.
Variable sqrt : F -> F.
Variable t_two_sided : F -> F -> F.
Local Open Scope num_scope.

Definition welch_statistic (a b : list F) : F :=
  let vn1 := var a / of_Z (Z.of_nat (length a)) in
  let vn2 := var b / of_Z (Z.of_nat (length b)) in
  let denom := sqrt (vn1 + vn2) in
  let d := mean a - mean b in
  d / denom.

Definition welch_df (a b : list F) : F :=
  let vn1 := var a / of_Z (Z.of_nat (length a)) in
  let vn2 := var b / of_Z (Z.of_nat (length b)) in
  let df := (vn1 + vn2) * (vn1 + vn2)
            / (vn1 * vn1 / of_Z (Z.of_nat (length a) - 1)
               + vn2 * vn2 / of_Z (Z.of_nat (length b) - 1)) in
  if isnan df then of_Z 1 else df.

Definition ttest_ind_pvalue (a b : list F) : F :=
  let t := welch_statistic a b in
  if isnan t then t else t_two_sided (welch_df a b) (fabs t).

End ttest.

(** ** differential_expression.py *)

Module differential_expression.

(** The dictionary appended per gene (lines 74-82). *)
Record TestRecord (F : Type) := {
  gene_id : string;
  mean_a : F;
  mean_b : F;
  log2_fc : F;
  p_value : F
}.
Arguments gene_id {F} t.
Arguments mean_a {F} t.
Arguments mean_b {F} t.
Arguments log2_fc {F} t.
Arguments p_value {F} t.

(** A row of the emitted table: the record and its [p_adj] cell. *)
Record ResultRow (F : Type) := { test : TestRecord F; p_adj : F }.
Arguments test {F} r.
Arguments p_adj {F} r.

(** The emitted table; its mean columns are named after the two labels. *)
Record ResultTable (F : Type) := {
  cond_a_name : string;
  cond_b_name : string;
  table : list (ResultRow F)
}.
Arguments cond_a_name {F} r.
Arguments cond_b_name {F} r.
Arguments table {F} r.

Section engine.
Context {F : Type} {num : Number F}.
Variable sqrt : F -> F.
Variable t_two_sided : F -> F -> F.
Variable np_argsort : list F -> list nat.   (* inside benjamini_hochberg *)
Variable pd_argsort : list F -> list nat.   (* inside sort_values *)
Local Open Scope num_scope.

(** Loop body, lines 64-82. *)
Definition per_gene (group_b : list (Row F)) (row_a : Row F) : TestRecord F :=
  let gene := label row_a in
  let a_vals := cells row_a in
  let b_vals := loc group_b gene in
  let pvalue := ttest_ind_pvalue sqrt t_two_sided a_vals b_vals in
  let mean_a := mean a_vals in
  let mean_b := mean b_vals in
  {| gene_id := gene; mean_a := mean_a; mean_b := mean_b;
     log2_fc := mean_a - mean_b; p_value := pvalue |}.

(** [df["p_adj"] = benjamini_hochberg(df["p_value"].values)], line 85. *)
Definition add_p_adj (records : list (TestRecord F)) : list (ResultRow F) :=
  let p_adj := benjamini_hochberg np_argsort (map p_value records) in
  map (fun rq => {| test := fst rq; p_adj := snd rq |}) (combine records p_adj).

(** [df.sort_values("p_value")]: rows reordered by the argsort of the key
    column (default kind, quicksort). *)
Definition pick (df : list (ResultRow F)) (i : nat) : list (ResultRow F) :=
  match nth_error df i with
  | Some r => [r]
  | None => []
  end.

Definition sort_values (df : list (ResultRow F)) : list (ResultRow F) :=
  flat_map (pick df) (pd_argsort (map (fun r => p_value (test r)) df)).

Definition main (counts : CountsFrame F) (metadata : Metadata)
  : result (ResultTable F) :=
  if negb (mem "gene_id" (columns counts)) then
    Raise (ValueError "Counts file must contain a 'gene_id' column.")
  else if negb (mem "sample_id" (md_columns metadata)
                && mem "condition" (md_columns metadata)) then
    Raise (ValueError "Metadata must contain 'sample_id' and 'condition' columns.")
  else
    let conditions := unique (map condition (md_rows metadata)) in
    match conditions with
    | [cond_a; cond_b] =>
        let samples_a := samples_of metadata cond_a in
        let samples_b := samples_of metadata cond_b in
        let missing_a := missing_from (columns counts) samples_a in
        let missing_b := missing_from (columns counts) samples_b in
        if negb (is_nil missing_a) || negb (is_nil missing_b) then
          let missing := (missing_a ++ missing_b)%list in
          Raise (ValueError (String.append "Samples missing from counts matrix: "
                               (String.concat ", " missing)))
        else
          group_a <- getitem counts samples_a ;;
          group_b <- getitem counts samples_b ;;
          let records := map (per_gene group_b) group_a in
          (* DataFrame.from_records([]) has no column at all *)
          if is_nil records then Raise (KeyError "p_value")
          else
            let df := add_p_adj records in
            Ok {| cond_a_name := cond_a; cond_b_name := cond_b;
                  table := sort_values df |}
    | _ => Raise (ValueError "Metadata must describe exactly two conditions.")
    end.

End engine.

End differential_expression.

(** The symmetry of the two labels.  [swap_test] is what the loop body
    appends when the roles of the two labels are exchanged, in terms of the
    record of the first run: the means change places and [log2_fc] is their
    difference taken the other way round.  [exchanged] is the
    specification's wording: mean columns exchanged, [log2_fc] negated,
    [p_value] and [p_adj] as they were.  Negation is that of numbers: a
    difference that is the zero [of_Z 0] in one run is the same zero in the
    other, which in binary64 is [+0.0] both times. *)
Section swapped.
Import differential_expression.
Context {F : Type} {num : Number F}.





End swapped.

(** What the symmetry rests on: addition commutes; a difference taken the
    other way round is the negation, or both are the zero [of_Z 0]; negation
    goes through a quotient and is undone by the absolute value; there is
    one NaN.  Both [exact] and [binary64] satisfy them. *)
Record SwapLaws (F : Type) (num : Number F) : Prop := {
  add_comm : forall x y : F, fadd x y = fadd y x;
  sub_swap : forall x y : F,
      fsub y x = fneg (fsub x y)
      \/ (fsub x y = of_Z 0 /\ fsub y x = of_Z 0);
  div_neg : forall u s : F, fdiv (fneg u) s = fneg (fdiv u s);
  abs_neg : forall v : F, fabs (fneg v) = fabs v;
  nan_neg : forall v : F, isnan (fneg v) = isnan v;
  nan_unique : forall x y : F, isnan x = true -> isnan y = true -> x = y
}.

(** ** preprocess_counts.py *)

Module preprocess_counts.

(** The annotation table: header and rows of text cells, [None] for an empty
    cell (NaN). *)
Record Annotations := {
  ann_columns : list string;
  ann_rows : list (list (option string))
}.

(** [c.lower().replace(" ", "_")] on ASCII text. *)
Definition lower_char (c : ascii) : ascii :=
  let n := nat_of_ascii c in
  if (65 <=? n)%nat && (n <=? 90)%nat then ascii_of_nat (n + 32) else c.

Definition underscore_char (c : ascii) : ascii :=
  if Ascii.eqb c " "%char then "_"%char else c.

Fixpoint map_chars (f : ascii -> ascii) (s : string) : string :=
  match s with
  | EmptyString => EmptyString
  | String c s' => String (f c) (map_chars f s')
  end.

Definition normalize_name (c : string) : string :=
  map_chars underscore_char (map_chars lower_char c).

Definition id_aliases : list string := ["gene_id"; "geneid"; "id"].

Definition symbol_aliases : list string :=
  ["gene_symbol"; "symbol"; "associated_gene_name"; "gene_name"].

(** [ann.dropna(subset=["gene_symbol"]).drop_duplicates("gene_id")
        .set_index("gene_id")["gene_symbol"]], read as a lookup: the first
    row with that identifier among those that have a symbol. *)
Fixpoint ann_lookup (pairs : list (option string * option string)) (gene : string)
  : option string :=
  match pairs with
  | [] => None
  | (Some g, Some sym) :: pairs' =>
      if String.eqb g gene then Some sym else ann_lookup pairs' gene
  | _ :: pairs' => ann_lookup pairs' gene
  end.

Fixpoint remove_nth {A : Type} (k : nat) (l : list A) : list A :=
  match l, k with
  | [], _ => []
  | _ :: l', O => l'
  | x :: l', S k' => x :: remove_nth k' l'
  end.

(** The counts as [read_csv] parsed them: a cell is of any type [C] (an
    int64 or a float64, by the column's dtype); the relabelling only moves
    cells around. *)
Section relabelling.
Context {C : Type}.

(** [counts.drop_duplicates(subset=["gene_id"])]: first occurrence kept. *)
Fixpoint drop_duplicates (seen : list string) (rs : list (Row C)) : list (Row C) :=
  match rs with
  | [] => []
  | r :: rs' =>
      if mem (label r) seen then drop_duplicates seen rs'
      else r :: drop_duplicates (label r :: seen) rs'
  end.

(** [counts.drop(columns=["gene_symbol"])] after the assignment
    [counts["gene_symbol"] = ...], which creates or overwrites the column. *)
Definition drop_gene_symbol (counts : CountsFrame C) : CountsFrame C :=
  match index_of "gene_symbol" (data_columns (columns counts)) with
  | None => counts
  | Some k =>
      {| columns := filter (fun c => negb (String.eqb c "gene_symbol"))
                           (columns counts);
         rows := map (fun r => {| label := label r;
                                  cells := remove_nth k (cells r) |})
                     (rows counts) |}
  end.

(** Lines 40-63. *)
Definition remap (ann : Annotations) (counts : CountsFrame C) : CountsFrame C :=
  let id_cols := filter (fun c => mem (normalize_name c) id_aliases)
                        (ann_columns ann) in
  let sym_cols := filter (fun c => mem (normalize_name c) symbol_aliases)
                         (ann_columns ann) in
  match id_cols, sym_cols with
  | id_col :: _, sym_col :: _ =>
      match index_of id_col (ann_columns ann),
            index_of sym_col (ann_columns ann) with
      | Some i, Some j =>
          let pairs := map (fun r => (nth i r None, nth j r None))
                           (ann_rows ann) in
          let relabelled :=
            map (fun r => {| label := match ann_lookup pairs (label r) with
                                      | Some sym => sym
                                      | None => label r
                                      end;
                             cells := cells r |})
                (rows counts) in
          let counts := drop_gene_symbol
                          {| columns := columns counts; rows := relabelled |} in
          {| columns := columns counts;
             rows := drop_duplicates [] (rows counts) |}
      | _, _ => counts
      end
  | _, _ => counts
  end.

End relabelling.

(** The arithmetic of the normalizer.  Two operations of pandas are taken as
    they are: [as_float x] is the float64 that the division makes of a
    parsed cell, and [column_sum column] is the entry of [counts.sum()] for
    a column, as the division sees it (pandas adds an int64 column with
    wrap-around and a float64 column skipping NaN, in an order that depends
    on the memory layout). *)
Section normalizer.
Context {C F : Type} {num : Number F}.
Variable as_float : C -> F.
Variable column_sum : list C -> F.
Variable log2 : F -> F.
Local Open Scope num_scope.

(** The cells of a row at the positions [idx]. *)
Definition pick_cells (idx : list nat) (cs : list C) : list C :=
  flat_map (fun i => match nth_error cs i with
                     | Some c => [c]
                     | None => []
                     end) idx.

(** [counts.set_index("gene_id")[names]], line 71. *)
Definition select (counts : CountsFrame C) (names : list string)
  : result (list (Row C)) :=
  idx <- locate (data_columns (columns counts)) names ;;
  Ok (map (fun r => {| label := label r; cells := pick_cells idx (cells r) |})
          (rows counts)).

(** Column [j] of a matrix, top to bottom. *)
Definition column (j : nat) (matrix : list (Row C)) : list C :=
  flat_map (fun r => match nth_error (cells r) j with
                     | Some c => [c]
                     | None => []
                     end) matrix.

(** [counts.sum()]: one total per column. *)
Definition column_totals (width : nat) (matrix : list (Row C)) : list F :=
  map (fun j => column_sum (column j matrix)) (seq 0 width).

(** Lines 9-12, on a frame of [width] columns. *)
Definition log2_cpm (width : nat) (counts : list (Row C)) : list (Row F) :=
  let totals := column_totals width counts in
  map (fun r =>
         {| label := label r;
            cells := map (fun xt => log2 (as_float (fst xt) / snd xt
                                          * of_Z 1000000 + of_Z 1))
                         (combine (cells r) totals) |})
      counts.

Definition main (counts : CountsFrame C) (metadata : Metadata)
                (annotations : option Annotations)
  : result (CountsFrame F) :=
  if negb (mem "gene_id" (columns counts)) then
    Raise (ValueError "Counts file must contain a 'gene_id' column.")
  else if negb (mem "sample_id" (md_columns metadata)
                && mem "condition" (md_columns metadata)) then
    Raise (ValueError "Metadata must contain 'sample_id' and 'condition' columns.")
  else
    let counts := match annotations with
                  | Some ann => remap ann counts
                  | None => counts
                  end in
    let sample_ids := map sample_id (md_rows metadata) in
    let missing := missing_from (columns counts) sample_ids in
    if negb (is_nil missing) then
      Raise (ValueError (String.append "Samples missing from counts matrix: "
                           (String.concat ", " missing)))
    else
      counts_matrix <- select counts sample_ids ;;
      let normalized := log2_cpm (length sample_ids) counts_matrix in
      Ok {| columns := "gene_id" :: sample_ids; rows := normalized |}.

End normalizer.

End preprocess_counts.

(** ** Vocabulary for the properties of the tables *)

Section named_cells.
Context {F : Type} {num : Number F}.
Local Open Scope num_scope.

(** The cell of row [r] in the data column named [s]. *)
Definition cell (counts : CountsFrame F) (r : Row F) (s : string) : F :=
  match index_of s (data_columns (columns counts)) with
  | Some k => nth k (cells r) (of_Z 0)
  | None => of_Z 0
  end.

End named_cells.

(** The same for the counts as parsed, whose cells are of any type. *)
Section raw_cells.
Context {C : Type}.

Definition raw_cell (counts : CountsFrame C) (r : Row C) (s : string) : option C :=
  match index_of s (data_columns (columns counts)) with
  | Some k => nth_error (cells r) k
  | None => None
  end.

(** The data column named [s], top to bottom. *)
Definition raw_column (counts : CountsFrame C) (s : string) : list C :=
  match index_of s (data_columns (columns counts)) with
  | Some k => preprocess_counts.column k (rows counts)
  | None => []
  end.

(** Every row has one cell per data column. *)
Definition well_formed (counts : CountsFrame C) : Prop :=
  forall r, In r (rows counts) ->
            length (cells r) = length (data_columns (columns counts)).

(** The matrix the normalizer aligns: relabelled when an annotation table
    is given (lines 40-63). *)
Definition annotated (annotations : option preprocess_counts.Annotations)
  (counts : CountsFrame C) : CountsFrame C :=
  match annotations with
  | Some ann => preprocess_counts.remap ann counts
  | None => counts
  end.

End raw_cells.

(** The symbol the annotation table gives to a gene identifier, when the
    table has an identifier column and a symbol column (lines 45-57). *)
Definition symbol_of (ann : preprocess_counts.Annotations) (gene : string)
  : option string :=
  match filter (fun c => mem (preprocess_counts.normalize_name c)
                             preprocess_counts.id_aliases)
               (preprocess_counts.ann_columns ann),
        filter (fun c => mem (preprocess_counts.normalize_name c)
                             preprocess_counts.symbol_aliases)
               (preprocess_counts.ann_columns ann) with
  | id_col :: _, sym_col :: _ =>
      match index_of id_col (preprocess_counts.ann_columns ann),
            index_of sym_col (preprocess_counts.ann_columns ann) with
      | Some i, Some j =>
          preprocess_counts.ann_lookup
            (map (fun r => (nth i r None, nth j r None))
                 (preprocess_counts.ann_rows ann))
            gene
      | _, _ => None
      end
  | _, _ => None
  end.

(** The label a gene carries after the remap: its symbol when the
    annotation table has one, its own identifier otherwise (line 60). *)
Definition relabel (ann : preprocess_counts.Annotations) (gene : string) : string :=
  match symbol_of ann gene with
  | Some sym => sym
  | None => gene
  end.

(** Whether the remap step runs: both kinds of column were detected. *)
Definition remap_applies (ann : preprocess_counts.Annotations) : bool :=
  negb (is_nil (filter (fun c => mem (preprocess_counts.normalize_name c)
                                     preprocess_counts.id_aliases)
                       (preprocess_counts.ann_columns ann)))
  && negb (is_nil (filter (fun c => mem (preprocess_counts.normalize_name c)
                                        preprocess_counts.symbol_aliases)
                          (preprocess_counts.ann_columns ann))).

(** ** actionable_report.py *)

Module actionable_report.

(** A row of the actionable-gene list: its [gene_id] cell and the others. *)
Record ActionableRow := { act_gene : string; act_cells : list string }.

Record ActionableFrame := {
  act_columns : list string;
  act_rows : list ActionableRow
}.

(** The differential results as read back: header and rows. *)
Record DiffFrame (F : Type) := {
  diff_columns : list string;
  diff_rows : list (differential_expression.ResultRow F)
}.
Arguments diff_columns {F} d.
Arguments diff_rows {F} d.

(** The summary JSON (lines 46-52). *)
Record Summary (F : Type) := {
  total_genes_tested : nat;
  significant_genes : nat;
  actionable_hits : nat;
  p_adj_cutoff : F;
  log2_fc_cutoff : F
}.
Arguments total_genes_tested {F} s.
Arguments significant_genes {F} s.
Arguments actionable_hits {F} s.
Arguments p_adj_cutoff {F} s.
Arguments log2_fc_cutoff {F} s.

Section report.
Context {F : Type} {num : Number F}.
Local Open Scope num_scope.

(** The row mask of lines 37-40; [x >= c] is [c <= x]. *)
Definition significant (p_adj_cut log2_fc_cut : F)
  (r : differential_expression.ResultRow F) : bool :=
  (differential_expression.p_adj r <=? p_adj_cut)
  && (log2_fc_cut <=? fabs (differential_expression.log2_fc
                              (differential_expression.test r))).

(** [filtered.merge(actionable, on="gene_id", how="inner")]: the pairs of a
    left row and a right row with the same [gene_id], in the order of the
    left rows. *)
Definition merge (filtered : list (differential_expression.ResultRow F))
  (actionable : list ActionableRow)
  : list (differential_expression.ResultRow F * ActionableRow) :=
  flat_map
    (fun l => map (fun r => (l, r))
                  (filter (fun r => String.eqb
                                      (differential_expression.gene_id
                                         (differential_expression.test l))
                                      (act_gene r))
                          actionable))
    filtered.

Definition main (diff : DiffFrame F) (actionable : ActionableFrame)
  (p_adj_cut log2_fc_cut : F)
  : result (list (differential_expression.ResultRow F * ActionableRow)
            * Summary F) :=
  if negb (mem "gene_id" (diff_columns diff)) then
    Raise (ValueError "Differential results must include gene_id.")
  else if negb (mem "gene_id" (act_columns actionable)) then
    Raise (ValueError "Actionable list must include gene_id.")
  else if negb (mem "p_adj" (diff_columns diff)) then
    Raise (KeyError "p_adj")
  else if negb (mem "log2_fc" (diff_columns diff)) then
    Raise (KeyError "log2_fc")
  else
    let filtered := filter (significant p_adj_cut log2_fc_cut) (diff_rows diff) in
    let merged := merge filtered (act_rows actionable) in
    Ok (merged,
        {| total_genes_tested := length (diff_rows diff);
           significant_genes := length filtered;
           actionable_hits := length merged;
           p_adj_cutoff := p_adj_cut;
           log2_fc_cutoff := log2_fc_cut |}).

End report.

(** The table the engine writes (line 89 of differential_expression.py), as
    the report reads it back: the header of [from_records] with [p_adj]
    appended, and the rows.  A NaN is written as an empty cell and read back
    as NaN. *)
Definition written {F : Type} (tbl : differential_expression.ResultTable F)
  : DiffFrame F :=
  {| diff_columns :=
       ["gene_id";
        String.append (differential_expression.cond_a_name tbl) "_mean";
        String.append (differential_expression.cond_b_name tbl) "_mean";
        "log2_fc"; "p_value"; "p_adj"];
     diff_rows := differential_expression.table tbl |}.

End actionable_report.

(** ** plot_reports.py: the point classes of the volcano and MA plots *)

Module plot_reports.

Section classes.
Context {F : Type} {num : Number F}.
Variable alpha : F.   (* the literal 0.05 *)
Local Open Scope num_scope.

(** Lines 74-75 and 108-109. *)
Definition up (r : differential_expression.ResultRow F) : bool :=
  (differential_expression.p_value (differential_expression.test r) <=? alpha)
  && (of_Z 1 <=? differential_expression.log2_fc (differential_expression.test r)).

Definition down (r : differential_expression.ResultRow F) : bool :=
  (differential_expression.p_value (differential_expression.test r) <=? alpha)
  && (differential_expression.log2_fc (differential_expression.test r) <=? of_Z (-1)).

(** The three scatter calls: rows drawn as Down, as Up, and as NS. *)
Definition drawn_down (df : list (differential_expression.ResultRow F)) := filter down df.
Definition drawn_up (df : list (differential_expression.ResultRow F)) := filter up df.
Definition drawn_ns (df : list (differential_expression.ResultRow F)) :=
  filter (fun r => negb (up r || down r)) df.

End classes.

End plot_reports.

Close Scope string_scope.

(** * Properties *)

(** ** Index arrays *)

Lemma length_set_item (A : Type) (a : list A) i v :
  length (set_item a i v) = length a.
Proof.
  revert i; induction a as [|x a IH]; intros [|i]; simpl; auto.
Qed.

Lemma nth_set_item_eq (A : Type) (a : list A) i v d :
  i < length a -> nth i (set_item a i v) d = v.
Proof.
  revert i; induction a as [|x a IH]; intros [|i] Hi; simpl in *; try lia; auto.
  apply IH; lia.
Qed.

Lemma nth_set_item_neq (A : Type) (a : list A) i j v d :
  i <> j -> nth j (set_item a i v) d = nth j a d.
Proof.
  revert i j; induction a as [|x a IH]; intros [|i] [|j] Hij; simpl; auto; try lia.
Qed.

Lemma length_put (A : Type) (idx : list nat) (vals a : list A) :
  length (put a idx vals) = length a.
Proof.
  unfold put. revert vals a.
  induction idx as [|i idx IH]; intros [|v vals] a; simpl; auto.
  rewrite IH. apply length_set_item.
Qed.

Lemma nth_put_notin (A : Type) (idx : list nat) (vals a : list A) j d :
  ~ In j idx -> nth j (put a idx vals) d = nth j a d.
Proof.
  unfold put. revert vals a.
  induction idx as [|i idx IH]; intros [|v vals] a Hj; simpl in *; auto.
  rewrite IH by tauto. apply nth_set_item_neq. intro; subst; tauto.
Qed.

Lemma nth_put (A : Type) (idx : list nat) (vals a : list A) k d :
  NoDup idx -> length vals = length idx -> k < length idx ->
  (forall i, In i idx -> i < length a) ->
  nth (nth k idx 0) (put a idx vals) d = nth k vals d.
Proof.
  revert vals a k.
  induction idx as [|i idx IH]; intros [|v vals] a k Hnd Hlen Hk Hin;
    simpl in *; try lia.
  inversion Hnd as [|? ? Hni Hnd']; subst.
  destruct k as [|k].
  - change (nth i (put (set_item a i v) idx vals) d = v).
    rewrite nth_put_notin by assumption.
    apply nth_set_item_eq. apply Hin; auto.
  - change (nth (nth k idx 0) (put (set_item a i v) idx vals) d = nth k vals d).
    apply IH; auto; try lia.
    intros j Hj. rewrite length_set_item. apply Hin; auto.
Qed.

Lemma index_permutation_perm idx n :
  is_index_permutation idx n = true -> Permutation (seq 0 n) idx.
Proof.
  unfold is_index_permutation. intros H.
  apply andb_true_iff in H as [Hl Hc].
  apply Nat.eqb_eq in Hl.
  apply NoDup_Permutation_bis.
  - apply seq_NoDup.
  - rewrite length_seq. lia.
  - intros i Hi. rewrite forallb_forall in Hc.
    specialize (Hc i Hi). apply existsb_exists in Hc as [j [Hj Hij]].
    apply Nat.eqb_eq in Hij. subst. assumption.
Qed.

Lemma index_permutation_facts idx n :
  is_index_permutation idx n = true ->
  length idx = n /\ NoDup idx /\ (forall i, In i idx <-> i < n).
Proof.
  intros H. pose proof (index_permutation_perm _ _ H) as P.
  split; [|split].
  - apply Permutation_length in P. rewrite length_seq in P. auto.
  - eapply Permutation_NoDup; [exact P | apply seq_NoDup].
  - intros i. split; intros Hi.
    + apply Permutation_sym in P. apply (Permutation_in _ P) in Hi.
      apply in_seq in Hi. lia.
    + apply (Permutation_in _ P). apply in_seq. lia.
Qed.

Lemma index_permutation_position idx n i :
  is_index_permutation idx n = true -> i < n ->
  exists k, k < n /\ nth k idx 0 = i.
Proof.
  intros H Hi. destruct (index_permutation_facts _ _ H) as (Hl & _ & Hin).
  apply Hin in Hi. destruct (In_nth _ _ 0 Hi) as (k & Hk & E).
  exists k. split; [lia | exact E].
Qed.

(** ** The code against the specification's wording, for any numbers *)

Section structure.
Context {F : Type} {num : Number F}.

Lemma length_take (a : list F) idx : length (take a idx) = length idx.
Proof. unfold take. apply length_map. Qed.

Lemma nth_take (a : list F) idx k d :
  k < length idx -> nth k (take a idx) d = nth (nth k idx 0) a (of_Z 0).
Proof.
  intros Hk. unfold take.
  rewrite (nth_indep _ d (nth 0 a (of_Z 0))) by (rewrite length_map; exact Hk).
  apply (map_nth (fun i => nth i a (of_Z 0)) idx 0 k).
Qed.

Lemma take_put (order : list nat) (vals : list F) n :
  is_index_permutation order n = true -> length vals = n ->
  take (put (empty n) order vals) order = vals.
Proof.
  intros H Hv. destruct (index_permutation_facts _ _ H) as (Hl & Hnd & Hin).
  apply nth_ext with (d := of_Z 0) (d' := of_Z 0).
  - rewrite length_take. lia.
  - intros k Hk. rewrite length_take in Hk. rewrite nth_take by exact Hk.
    apply nth_put; auto; try lia.
    intros i Hi. unfold empty. rewrite repeat_length. apply Hin, Hi.
Qed.

Lemma length_accumulate_from f (acc : F) a :
  length (accumulate_from f acc a) = length a.
Proof. revert acc; induction a; intros; simpl; auto. Qed.

Lemma last_cons_indep (x : F) l d d' : last (x :: l) d = last (x :: l) d'.
Proof.
  revert x; induction l as [|y l IH]; intros x; [reflexivity|].
  change (last (y :: l) d = last (y :: l) d'). apply IH.
Qed.

Lemma accumulate_from_app f (acc : F) a x :
  accumulate_from f acc (a ++ [x])
  = accumulate_from f acc a ++ [f (last (accumulate_from f acc a) acc) x].
Proof.
  revert acc; induction a as [|y a IH]; intros acc; simpl; auto.
  rewrite IH.
  destruct (accumulate_from f (f acc y) a) as [|z l] eqn:E; [reflexivity|].
  change (last (f acc y :: z :: l) acc) with (last (z :: l) acc).
  rewrite (last_cons_indep z l acc (f acc y)). reflexivity.
Qed.

Lemma accumulate_app f (a : list F) x y :
  accumulate f ((y :: a) ++ [x])
  = accumulate f (y :: a) ++ [f (last (accumulate f (y :: a)) y) x].
Proof.
  simpl accumulate. rewrite accumulate_from_app.
  destruct (accumulate_from f y a) as [|z l] eqn:E; [reflexivity|].
  change (last (y :: z :: l) y) with (last (z :: l) y). reflexivity.
Qed.

(** [np.minimum.accumulate(c[::-1])[::-1]] is the step-up recursion. *)
Lemma rev_accumulate_rev (c : list F) :
  rev (accumulate minimum (rev c)) = step_up c.
Proof.
  induction c as [|x c IH]; [reflexivity|].
  simpl step_up. rewrite <- IH.
  change (rev (x :: c)) with (rev c ++ [x]).
  destruct (rev c) as [|y r] eqn:E; [reflexivity|].
  rewrite accumulate_app.
  remember (accumulate minimum (y :: r)) as A eqn:EA.
  rewrite rev_app_distr.
  change (rev [minimum (last A y) x]) with [minimum (last A y) x].
  destruct (rev A) as [|m ms] eqn:E2.
  - apply (f_equal (@length F)) in E2. rewrite length_rev in E2.
    rewrite EA in E2. simpl in E2. discriminate.
  - assert (E3 : A = rev ms ++ [m])
      by (rewrite <- (rev_involutive A), E2; reflexivity).
    rewrite E3, last_last. reflexivity.
Qed.

Lemma length_step_up (c : list F) : length (step_up c) = length c.
Proof.
  induction c as [|x c IH]; simpl; auto.
  destruct (step_up c); simpl in *; lia.
Qed.

Lemma length_candidates n (sp : list F) : length (candidates n sp) = length sp.
Proof.
  unfold candidates. rewrite length_map, length_combine, length_seq. lia.
Qed.

Variable argsort : list F -> list nat.

(** Lines 13-22 read in rank order. *)
Lemma bh_in_rank_order (p : list F) :
  is_index_permutation (argsort p) (length p) = true ->
  take (benjamini_hochberg argsort p) (argsort p)
  = map clip01 (step_up (candidates (length p) (take p (argsort p)))).
Proof.
  intros H. destruct (index_permutation_facts _ _ H) as (Hl & Hnd & Hin).
  unfold benjamini_hochberg.
  set (n := length p). set (order := argsort p) in *.
  set (ranks := put (repeat 0 n) order (arange 1 (n + 1))).
  assert (Hranks : length ranks = n)
    by (unfold ranks; rewrite length_put, repeat_length; reflexivity).
  set (adjusted := map _ (combine p ranks)).
  assert (Hc : take adjusted order = candidates n (take p order)).
  { apply nth_ext with (d := of_Z 0) (d' := of_Z 0).
    - rewrite length_candidates, !length_take. reflexivity.
    - intros k Hk. rewrite length_take in Hk.
      rewrite nth_take by exact Hk.
      assert (Hik : nth k order 0 < n) by (apply Hin, nth_In; exact Hk).
      unfold adjusted, candidates.
      set (g := fun pr : F * nat => _).
      set (h := fun kp : nat * F => _).
      rewrite (nth_indep (map g _) (of_Z 0) (g (of_Z 0, 0)))
        by (rewrite length_map, length_combine; fold n; lia).
      rewrite (map_nth g).
      rewrite combine_nth by (fold n; lia).
      rewrite (nth_indep (map h _) (of_Z 0) (h (0, of_Z 0)))
        by (rewrite length_map, length_combine, length_seq, length_take; lia).
      rewrite (map_nth h).
      rewrite combine_nth by (rewrite length_seq; reflexivity).
      rewrite length_take, seq_nth by lia.
      rewrite nth_take by exact Hk.
      unfold g, h; simpl fst; simpl snd.
      unfold ranks.
      rewrite (nth_put nat order (arange 1 (n + 1)) (repeat 0 n) k 0 Hnd).
      + unfold arange. rewrite seq_nth by lia. reflexivity.
      + unfold arange. rewrite length_seq. lia.
      + exact Hk.
      + intros i Hi. rewrite repeat_length. apply Hin, Hi. }
  rewrite Hc, rev_accumulate_rev.
  apply take_put; [exact H|].
  rewrite length_map, length_step_up, length_candidates, length_take. exact Hl.
Qed.

Lemma length_benjamini_hochberg (p : list F) :
  length (benjamini_hochberg argsort p) = length p.
Proof.
  unfold benjamini_hochberg. rewrite length_put. apply repeat_length.
Qed.

End structure.

(** ** Exact arithmetic: order facts *)

Section exact_order.
Local Open Scope Q_scope.

Lemma inject_Z_pos z : (0 < z)%Z -> 0 < inject_Z z.
Proof. intros. change 0 with (inject_Z 0). rewrite <- Zlt_Qlt. assumption. Qed.

Lemma mul_frac_le (x r : Q) : 0 <= x -> r <= 1 -> x * r <= x.
Proof. intros. nra. Qed.

Lemma cand_antitone (a b : Q) (n u v : Z) :
  0 <= b -> b <= a -> (0 < u <= v)%Z -> (0 <= n)%Z ->
  b * inject_Z n / inject_Z v <= a * inject_Z n / inject_Z u.
Proof.
  intros Hb Hab Huv Hn.
  assert (Hu : 0 < inject_Z u) by (apply inject_Z_pos; lia).
  assert (Hv : 0 < inject_Z v) by (apply inject_Z_pos; lia).
  assert (Huv' : inject_Z u <= inject_Z v) by (rewrite <- Zle_Qle; lia).
  assert (Hn' : 0 <= inject_Z n)
    by (change 0 with (inject_Z 0); rewrite <- Zle_Qle; lia).
  apply Qle_shift_div_l; [exact Hu|].
  assert (E : b * inject_Z n / inject_Z v * inject_Z u
              == (b * inject_Z n) * (inject_Z u / inject_Z v)) by (field; lra).
  rewrite E.
  apply Qle_trans with (b * inject_Z n).
  - apply mul_frac_le.
    + apply Qmult_le_0_compat; assumption.
    + apply Qle_shift_div_r; [exact Hv | lra].
  - apply Qmult_le_compat_r; assumption.
Qed.


Lemma cand_neg (p : Q) (n u : Z) :
  p < 0 -> (0 < n)%Z -> (0 < u)%Z -> p * inject_Z n / inject_Z u < 0.
Proof.
  intros Hp Hn Hu. apply inject_Z_pos in Hn, Hu.
  apply Qlt_shift_div_r; [exact Hu|]. nra.
Qed.

Lemma Qle_bool_false x y : Qle_bool x y = false -> y < x.
Proof.
  intros E. apply Qnot_le_lt. intros H.
  apply Qle_bool_iff in H. congruence.
Qed.

Lemma minimum_exact_cases (a b : Q) :
  (a <= b /\ minimum a b = a) \/ (b < a /\ minimum a b = b).
Proof.
  unfold minimum; simpl. rewrite orb_false_r.
  destruct (Qle_bool a b) eqn:E.
  - left. split; [apply Qle_bool_iff, E | reflexivity].
  - right. split; [apply Qle_bool_false, E | reflexivity].
Qed.

Lemma clip01_exact_cases (x : Q) :
  (x < 0 /\ clip01 x = 0) \/ (0 <= x <= 1 /\ clip01 x = x)
  \/ (1 < x /\ clip01 x = 1).
Proof.
  unfold clip01, clip; simpl.
  destruct (Qle_bool (inject_Z 0) x) eqn:E0; simpl.
  - apply Qle_bool_iff in E0. change (inject_Z 0) with 0 in E0.
    destruct (Qle_bool x (inject_Z 1)) eqn:E1; simpl.
    + apply Qle_bool_iff in E1. right; left. split; [split; assumption | reflexivity].
    + apply Qle_bool_false in E1. right; right. split; [exact E1 | reflexivity].
  - apply Qle_bool_false in E0. left. split; [exact E0 | reflexivity].
Qed.

Lemma clip01_mono (x y : Q) : x <= y -> clip01 x <= clip01 y.
Proof.
  intros H.
  destruct (clip01_exact_cases x) as [[? ->]|[[? ->]|[? ->]]];
  destruct (clip01_exact_cases y) as [[? ->]|[[? ->]|[? ->]]]; lra.
Qed.

Lemma clip01_range (x : Q) : 0 <= clip01 x <= 1.
Proof. destruct (clip01_exact_cases x) as [[? ->]|[[? ->]|[? ->]]]; lra. Qed.


Lemma clip01_proper (x y : Q) : x == y -> clip01 x == clip01 y.
Proof.
  intros H. apply Qle_antisym; apply clip01_mono; lra.
Qed.

Lemma step_up_cons_S (x : Q) c k d :
  nth (S k) (step_up (x :: c)) d = nth k (step_up c) d.
Proof.
  simpl. destruct (step_up c) as [|y r]; [destruct k|]; reflexivity.
Qed.

Lemma step_up_cons_0 (x y : Q) c d :
  nth 0 (step_up (x :: y :: c)) d = minimum (nth 0 (step_up (y :: c)) d) x.
Proof.
  pose proof (length_step_up (y :: c)) as L.
  change (step_up (x :: y :: c)) with
    (match step_up (y :: c) with [] => [x] | (z :: _) as r => minimum z x :: r end).
  destruct (step_up (y :: c)); [discriminate L | reflexivity].
Qed.

(** The step-up value of a rank is a lower bound of the candidates of that
    rank and of every higher one, and it is one of them. *)
Lemma step_up_lower (c : list Q) k j :
  (k <= j < length c)%nat -> nth k (step_up c) 0 <= nth j c 0.
Proof.
  revert k j. induction c as [|x c IH]; intros k j H; [simpl in H; lia|].
  destruct k as [|k].
  - destruct c as [|y c]; [destruct j; [simpl; lra | simpl in H; lia]|].
    rewrite step_up_cons_0.
    destruct (minimum_exact_cases (nth 0 (step_up (y :: c)) 0) x)
      as [[Hm ->]|[Hm ->]].
    + destruct j as [|j]; [exact Hm|].
      apply (IH 0%nat j). simpl in *; lia.
    + destruct j as [|j]; [simpl; lra|].
      apply Qle_trans with (nth 0 (step_up (y :: c)) 0); [lra|].
      apply (IH 0%nat j). simpl in *; lia.
  - destruct j as [|j]; [lia|]. rewrite step_up_cons_S.
    apply IH. simpl in H. lia.
Qed.

Lemma step_up_attained (c : list Q) k :
  (k < length c)%nat ->
  exists j, (k <= j < length c)%nat /\ nth k (step_up c) 0 = nth j c 0.
Proof.
  revert k. induction c as [|x c IH]; intros k H; [simpl in H; lia|].
  destruct k as [|k].
  - destruct c as [|y c]; [exists 0%nat; split; [simpl; lia | reflexivity]|].
    rewrite step_up_cons_0.
    destruct (minimum_exact_cases (nth 0 (step_up (y :: c)) 0) x)
      as [[Hm ->]|[Hm ->]].
    + destruct (IH 0%nat) as (j & Hj & E); [simpl; lia|].
      exists (S j). split; [simpl in *; lia | exact E].
    + exists 0%nat. split; [simpl; lia | reflexivity].
  - rewrite step_up_cons_S. destruct (IH k) as (j & Hj & E); [simpl in H; lia|].
    exists (S j). split; [simpl in *; lia | exact E].
Qed.

Lemma step_up_monotone (c : list Q) k k' :
  (k <= k' < length c)%nat -> nth k (step_up c) 0 <= nth k' (step_up c) 0.
Proof.
  intros H. destruct (step_up_attained c k') as (j & Hj & ->); [lia|].
  apply step_up_lower. lia.
Qed.

Lemma nth_monotone_sorted (l : list Q) :
  (forall i j, (i <= j < length l)%nat -> nth i l 0 <= nth j l 0) ->
  StronglySorted Qle l.
Proof.
  induction l as [|x l IH]; intros H; constructor.
  - apply IH. intros i j Hij. apply (H (S i) (S j)). simpl. lia.
  - apply Forall_forall. intros y Hy.
    destruct (In_nth _ _ 0 Hy) as (j & Hj & <-).
    apply (H 0%nat (S j)). simpl. lia.
Qed.

Lemma is_sorted_nth (a : list Q) i j :
  is_sorted a = true -> (i <= j < length a)%nat -> nth i a 0 <= nth j a 0.
Proof.
  revert i j. induction a as [|x a IH]; intros i j Hs H; [simpl in H; lia|].
  assert (Hs' : is_sorted a = true).
  { simpl in Hs. destruct a; [reflexivity|].
    apply andb_true_iff in Hs. apply Hs. }
  destruct i as [|i].
  - destruct j as [|j]; [simpl; lra|].
    destruct a as [|y a]; [simpl in H; lia|].
    apply Qle_trans with y.
    + simpl in Hs. apply andb_true_iff in Hs as [Hxy _].
      unfold sort_le in Hxy. simpl in Hxy. rewrite orb_false_r in Hxy.
      apply Qle_bool_iff, Hxy.
    + apply (IH 0%nat j Hs'). simpl in *; lia.
  - destruct j as [|j]; [lia|]. apply (IH i j Hs'). simpl in H; lia.
Qed.

Lemma nth_take_exact (a : list Q) idx k :
  (k < length idx)%nat -> nth k (take a idx) 0 = nth (nth k idx 0%nat) a 0.
Proof. intros H. exact (nth_take a idx k 0 H). Qed.

Lemma nth_map_clip01 (m : list Q) k :
  nth k (map clip01 m) 0 = clip01 (nth k m 0).
Proof.
  change (nth k (map clip01 m) (clip01 0) = clip01 (nth k m 0)).
  apply map_nth.
Qed.

Lemma nth_candidates n (sp : list Q) k :
  (k < length sp)%nat ->
  nth k (candidates n sp) 0
  = nth k sp 0 * inject_Z (Z.of_nat n) / inject_Z (Z.of_nat (S k)).
Proof.
  intros Hk. unfold candidates.
  set (h := fun kp : nat * Q => _).
  rewrite (nth_indep (map h _) 0 (h (0%nat, 0)))
    by (rewrite length_map, length_combine, length_seq; lia).
  rewrite (map_nth h).
  rewrite combine_nth by (rewrite length_seq; reflexivity).
  rewrite seq_nth by lia. reflexivity.
Qed.

End exact_order.

(** ** Benjamini-Hochberg in exact arithmetic *)

Section bh_exact.
Local Open Scope Q_scope.
Variable argsort : list Q -> list nat.

(** The adjusted value of the gene at 0-based position [k] of the ranking. *)
Lemma bh_at_rank (p : list Q) k :
  is_argsort p (argsort p) = true -> (k < length p)%nat ->
  nth (nth k (argsort p) 0%nat) (benjamini_hochberg argsort p) 0
  = clip01 (nth k (step_up (candidates (length p) (take p (argsort p)))) 0).
Proof.
  intros H Hk. apply andb_true_iff in H as [Hp _].
  pose proof (bh_in_rank_order argsort p Hp) as E.
  destruct (index_permutation_facts _ _ Hp) as (Hl & _ & _).
  rewrite <- nth_map_clip01, <- E.
  symmetry. apply nth_take_exact. lia.
Qed.

Lemma sorted_p_nth (p : list Q) k :
  is_argsort p (argsort p) = true -> (k < length p)%nat ->
  nth k (take p (argsort p)) 0 = nth (nth k (argsort p) 0%nat) p 0.
Proof.
  intros H Hk. apply andb_true_iff in H as [Hp _].
  destruct (index_permutation_facts _ _ Hp) as (Hl & _ & _).
  apply nth_take_exact. lia.
Qed.


(** Two ranks holding the same p-value get the same adjusted value. *)
Lemma tie_block (sp : list Q) ki kj :
  is_sorted sp = true -> (ki <= kj < length sp)%nat ->
  nth ki sp 0 == nth kj sp 0 ->
  clip01 (nth ki (step_up (candidates (length sp) sp)) 0)
  == clip01 (nth kj (step_up (candidates (length sp) sp)) 0).
Proof.
  intros Hs Hk Heq.
  set (n := length sp) in *. set (c := candidates n sp).
  assert (Lc : length c = n) by apply length_candidates.
  assert (Hn : (0 < Z.of_nat n)%Z) by lia.
  pose proof (step_up_lower c ki ki ltac:(lia)) as Lki.
  pose proof (step_up_lower c kj kj ltac:(lia)) as Lkj.
  unfold c in Lki at 2, Lkj at 2.
  rewrite nth_candidates in Lki, Lkj by (fold n; lia).
  destruct (Qlt_le_dec (nth ki sp 0) 0) as [Hneg|Hpos].
  - pose proof (cand_neg _ (Z.of_nat n) (Z.of_nat (S ki)) Hneg Hn ltac:(lia)).
    assert (Hneg' : nth kj sp 0 < 0) by lra.
    pose proof (cand_neg _ (Z.of_nat n) (Z.of_nat (S kj)) Hneg' Hn ltac:(lia)).
    fold n in Lki, Lkj. fold c.
    destruct (clip01_exact_cases (nth ki (step_up c) 0)) as [[? ->]|[[? ->]|[? ->]]];
    destruct (clip01_exact_cases (nth kj (step_up c) 0)) as [[? ->]|[[? ->]|[? ->]]];
      lra.
  - apply clip01_proper. fold c. apply Qle_antisym.
    + apply step_up_monotone. lia.
    + destruct (step_up_attained c ki ltac:(lia)) as (j & Hj & ->).
      destruct (le_lt_dec kj j) as [Hge|Hlt].
      * apply step_up_lower. lia.
      * apply Qle_trans with (nth kj c 0); [apply step_up_lower; lia|].
        unfold c. rewrite !nth_candidates by (fold n; lia).
        pose proof (is_sorted_nth sp ki j Hs ltac:(fold n; lia)).
        pose proof (is_sorted_nth sp j kj Hs ltac:(fold n; lia)).
        apply cand_antitone; try lia; lra.
Qed.

End bh_exact.

(** C10.  Two positions holding equal raw p-values receive equal adjusted
    p-values, whichever admissible ranking [argsort] returns, that is,
    whichever of the tied positions gets the smaller rank. *)
Theorem bh_ties_equal (argsort : list Q -> list nat) (p : list Q) (i j : nat) :
  is_argsort p (argsort p) = true ->
  i < length p -> j < length p ->
  (nth i p 0 == nth j p 0)%Q ->
  (nth i (benjamini_hochberg argsort p) 0
   == nth j (benjamini_hochberg argsort p) 0)%Q.
Proof.
  intros H Hi Hj Heq. pose proof H as H'.
  apply andb_true_iff in H' as [Hp Hs].
  destruct (index_permutation_facts _ _ Hp) as (Hl & _ & _).
  destruct (index_permutation_position _ _ i Hp Hi) as (ki & Hki & <-).
  destruct (index_permutation_position _ _ j Hp Hj) as (kj & Hkj & <-).
  rewrite !(bh_at_rank argsort p) by assumption.
  rewrite <- !(sorted_p_nth argsort p) in Heq by assumption.
  assert (L : length (take p (argsort p)) = length p)
    by (rewrite length_take; exact Hl).
  rewrite <- L.
  destruct (le_lt_dec ki kj) as [Hle|Hlt].
  - apply tie_block; [exact Hs | lia | exact Heq].
  - symmetry. apply tie_block; [exact Hs | lia | symmetry; exact Heq].
Qed.

Lemma bh_ties_equal_witness :
  let p := [1 # 2; 1 # 100; 1 # 4; 2 # 200]%Q in
  is_argsort p (argsort_reversing_ties p) = true
  /\ 1 < length p /\ 3 < length p /\ (nth 1 p 0 == nth 3 p 0)%Q
  /\ (nth 1 (benjamini_hochberg argsort_reversing_ties p) 0
      == nth 3 (benjamini_hochberg argsort_reversing_ties p) 0)%Q.
Proof.
  split; [reflexivity|]. split; [simpl; lia|]. split; [simpl; lia|].
  split; [reflexivity|].
  apply (bh_ties_equal argsort_reversing_ties
           [1 # 2; 1 # 100; 1 # 4; 2 # 200]%Q 1 3);
    [reflexivity | simpl; lia | simpl; lia | reflexivity].
Defined.

Section bh_boundary.
Local Open Scope Q_scope.



End bh_boundary.

(** ** Validation in [differential_expression.main] *)

Section engine_validation.
Import differential_expression.
Context {F : Type} {num : Number F}.
Variable sqrt : F -> F.
Variable t_two_sided : F -> F -> F.
Variables np_argsort pd_argsort : list F -> list nat.
Local Open Scope string_scope.

Lemma locate_raise cols names e :
  locate cols names = Raise e ->
  exists requested absent, e = KeyErrorLabels requested absent.
Proof.
  unfold locate. destruct (is_nil (missing_from cols names)); intros H;
    inversion H. eauto.
Qed.

Lemma getitem_raise (counts : CountsFrame F) names e :
  getitem counts names = Raise e ->
  exists requested absent, e = KeyErrorLabels requested absent.
Proof.
  unfold getitem. intros H.
  destruct (locate (data_columns (columns counts)) names) as [idx|e'] eqn:E;
    simpl in H; [discriminate|].
  inversion H; subst. eapply locate_raise; eassumption.
Qed.

Lemma main_two_conditions counts metadata cond_a cond_b :
  mem "gene_id" (columns counts) = true ->
  mem "sample_id" (md_columns metadata) && mem "condition" (md_columns metadata) = true ->
  unique (map condition (md_rows metadata)) = [cond_a; cond_b] ->
  main sqrt t_two_sided np_argsort pd_argsort counts metadata
  = let samples_a := samples_of metadata cond_a in
    let samples_b := samples_of metadata cond_b in
    let missing_a := missing_from (columns counts) samples_a in
    let missing_b := missing_from (columns counts) samples_b in
    if negb (is_nil missing_a) || negb (is_nil missing_b) then
      Raise (ValueError (String.append "Samples missing from counts matrix: "
                           (String.concat ", " (missing_a ++ missing_b)%list)))
    else
      group_a <- getitem counts samples_a ;;
      group_b <- getitem counts samples_b ;;
      let records := map (per_gene sqrt t_two_sided group_b) group_a in
      if is_nil records then Raise (KeyError "p_value")
      else
        Ok {| cond_a_name := cond_a; cond_b_name := cond_b;
              table := sort_values pd_argsort (add_p_adj np_argsort records) |}.
Proof.
  intros Hg Hm Hc. unfold main. rewrite Hg, Hm, Hc. reflexivity.
Qed.

End engine_validation.

(** C6.  Once both tables have their required columns, the engine fails with
    the unsupported-design error exactly when the condition column does not
    hold two distinct values; the counts rows play no part in that outcome,
    which is decided before any gene is looked at. *)
Theorem unsupported_design_iff
  (F : Type) (num : Number F) (sqrt : F -> F) (t_two_sided : F -> F -> F)
  (np_argsort pd_argsort : list F -> list nat)
  (counts : CountsFrame F) (metadata : Metadata) :
  mem "gene_id" (columns counts) = true ->
  mem "sample_id" (md_columns metadata) && mem "condition" (md_columns metadata) = true ->
  (differential_expression.main sqrt t_two_sided np_argsort pd_argsort counts metadata
   = Raise (ValueError "Metadata must describe exactly two conditions.")
   <-> length (unique (map condition (md_rows metadata))) <> 2).
Proof.
  intros Hg Hm.
  destruct (unique (map condition (md_rows metadata)))
    as [|a [|b [|c l]]] eqn:Hc.
  1, 2, 4: unfold differential_expression.main; rewrite Hg, Hm, Hc; simpl;
    split; [intros _; lia | reflexivity].
  rewrite (main_two_conditions sqrt t_two_sided np_argsort pd_argsort
             counts metadata a b Hg Hm Hc).
  split; [|simpl; lia]. intros H. exfalso. cbv zeta in H.
  destruct (negb (is_nil (missing_from (columns counts) (samples_of metadata a)))
            || negb (is_nil (missing_from (columns counts) (samples_of metadata b)))).
  - inversion H.
  - destruct (getitem counts (samples_of metadata a)) as [ga|e] eqn:Ea; simpl in H.
    + destruct (getitem counts (samples_of metadata b)) as [gb|e] eqn:Eb; simpl in H.
      * destruct (is_nil _) in H; discriminate.
      * apply getitem_raise in Eb as (rq & ab & ->). discriminate.
    + apply getitem_raise in Ea as (rq & ab & ->). discriminate.
Qed.

Lemma unsupported_design_iff_witness :
  let counts : CountsFrame Q :=
    {| columns := ["gene_id"; "S1"; "S2"; "S3"]%string;
       rows := [{| label := "g1"; cells := [1; 2; 3]%Q |}] |} in
  let metadata :=
    {| md_columns := ["sample_id"; "condition"]%string;
       md_rows := [{| sample_id := "S1"; condition := "ctrl" |};
                   {| sample_id := "S2"; condition := "drugA" |};
                   {| sample_id := "S3"; condition := "drugB" |}] |} in
  mem "gene_id" (columns counts) = true
  /\ mem "sample_id" (md_columns metadata) && mem "condition" (md_columns metadata) = true
  /\ (differential_expression.main (fun x => x) (fun _ t => t)
        argsort_stable argsort_stable counts metadata
      = Raise (ValueError "Metadata must describe exactly two conditions.")
      <-> length (unique (map condition (md_rows metadata))) <> 2).
Proof.
  split; [reflexivity|]. split; [reflexivity|].
  apply unsupported_design_iff; reflexivity.
Defined.

(** ** Missing samples *)

Lemma In_unique x l : In x l -> In x (unique l).
Proof.
  induction l as [|y l IH]; intros H; simpl in *; [contradiction|].
  destruct (String.eqb_spec x y) as [->|Hne]; [left; reflexivity|].
  right. apply filter_In. split.
  - apply IH. destruct H as [->|H]; [contradiction | exact H].
  - apply negb_true_iff. apply String.eqb_neq. exact Hne.
Qed.

Lemma mem_In s l : mem s l = true <-> In s l.
Proof.
  unfold mem. rewrite existsb_exists. split.
  - intros (x & Hx & E). apply String.eqb_eq in E. subst. exact Hx.
  - intros H. exists s. split; [exact H | apply String.eqb_refl].
Qed.

Lemma In_missing_from cols samples s :
  In s (missing_from cols samples) <-> In s samples /\ mem s cols = false.
Proof.
  unfold missing_from. rewrite filter_In, negb_true_iff. reflexivity.
Qed.

Lemma In_samples_of metadata c s :
  In s (samples_of metadata c)
  <-> exists r, In r (md_rows metadata) /\ condition r = c /\ sample_id r = s.
Proof.
  unfold samples_of. rewrite in_map_iff. split.
  - intros (r & E & H). apply filter_In in H as [H C].
    apply String.eqb_eq in C. eauto.
  - intros (r & H & C & E). exists r. split; [exact E|].
    apply filter_In. split; [exact H | apply String.eqb_eq, C].
Qed.

Lemma two_groups_cover metadata cond_a cond_b s :
  unique (map condition (md_rows metadata)) = [cond_a; cond_b] ->
  In s (map sample_id (md_rows metadata)) <->
  In s (samples_of metadata cond_a) \/ In s (samples_of metadata cond_b).
Proof.
  intros Hc. rewrite !In_samples_of, in_map_iff. split.
  - intros (r & E & H).
    assert (Hr : In (condition r) (unique (map condition (md_rows metadata))))
      by (apply In_unique, in_map, H).
    rewrite Hc in Hr. destruct Hr as [Hr|[Hr|[]]]; [left|right]; eauto.
  - intros [(r & H & _ & E)|(r & H & _ & E)]; eauto.
Qed.

Lemma any_missing (a b : list string) :
  negb (is_nil a) || negb (is_nil b) = negb (is_nil (a ++ b)).
Proof. destruct a, b; reflexivity. Qed.

Lemma is_nil_true (A : Type) (l : list A) : is_nil l = true <-> l = [].
Proof. destruct l; simpl; split; intros; congruence. Qed.

Lemma is_nil_false (A : Type) (l : list A) : is_nil l = false <-> l <> [].
Proof. destruct l; simpl; split; intros; congruence. Qed.



(** ** Column selection *)

Lemma index_of_In s cols : In s cols -> exists i, index_of s cols = Some i.
Proof.
  induction cols as [|c cols IH]; intros H; simpl in *; [contradiction|].
  destruct (String.eqb_spec c s) as [E|Hne]; [eauto|].
  destruct H as [H|H]; [contradiction|].
  destruct (IH H) as [i ->]. eauto.
Qed.

Lemma missing_from_nil cols samples :
  missing_from cols samples = [] <-> (forall s, In s samples -> mem s cols = true).
Proof.
  split.
  - intros E s Hs. destruct (mem s cols) eqn:M; [reflexivity|].
    assert (X : In s (missing_from cols samples))
      by (apply In_missing_from; auto).
    rewrite E in X. contradiction.
  - intros H. destruct (missing_from cols samples) as [|s l] eqn:E; [reflexivity|].
    assert (X : In s (missing_from cols samples)) by (rewrite E; left; reflexivity).
    apply In_missing_from in X as [Hs M]. rewrite (H s Hs) in M. discriminate.
Qed.

Lemma locate_ok cols names :
  (forall s, In s names -> In s cols) -> exists idx, locate cols names = Ok idx.
Proof.
  intros H. unfold locate.
  rewrite (proj2 (missing_from_nil cols names))
    by (intros s Hs; apply mem_In, H, Hs).
  simpl. eauto.
Qed.

Lemma In_data_columns s cols :
  In s (data_columns cols) <-> In s cols /\ s <> "gene_id"%string.
Proof.
  unfold data_columns. rewrite filter_In, negb_true_iff, String.eqb_neq.
  reflexivity.
Qed.

Lemma getitem_ok (F : Type) (num : Number F) (counts : CountsFrame F) names :
  (forall s, In s names -> mem s (columns counts) = true /\ s <> "gene_id"%string) ->
  exists idx,
    locate (data_columns (columns counts)) names = Ok idx
    /\ getitem counts names = Ok (map (select_cells idx) (rows counts)).
Proof.
  intros H.
  destruct (locate_ok (data_columns (columns counts)) names) as [idx E].
  - intros s Hs. apply In_data_columns. destruct (H s Hs) as [Hm Hne].
    split; [apply mem_In, Hm | exact Hne].
  - exists idx. split; [exact E|]. unfold getitem. rewrite E. reflexivity.
Qed.

(** C4, what the code does.  On a matrix without any gene row, with valid
    metadata and every sample present, the run ends in [KeyError]: the frame
    built from no record has no [p_value] column to read. *)
Theorem empty_gene_set_raises
  (F : Type) (num : Number F) (sqrt : F -> F) (t_two_sided : F -> F -> F)
  (np_argsort pd_argsort : list F -> list nat)
  (counts : CountsFrame F) (metadata : Metadata) :
  mem "gene_id" (columns counts) = true ->
  mem "sample_id" (md_columns metadata) && mem "condition" (md_columns metadata) = true ->
  length (unique (map condition (md_rows metadata))) = 2 ->
  (forall s, In s (map sample_id (md_rows metadata)) ->
             mem s (columns counts) = true /\ s <> "gene_id"%string) ->
  rows counts = [] ->
  differential_expression.main sqrt t_two_sided np_argsort pd_argsort counts metadata
  = Raise (KeyError "p_value").
Proof.
  intros Hg Hm Hc Hs Hr.
  destruct (unique (map condition (md_rows metadata)))
    as [|a [|b [|c l]]] eqn:Hu; try discriminate Hc.
  rewrite (main_two_conditions sqrt t_two_sided np_argsort pd_argsort
             counts metadata a b Hg Hm Hu).
  cbv zeta.
  assert (Ha : forall s, In s (samples_of metadata a) ->
                 mem s (columns counts) = true /\ s <> "gene_id"%string).
  { intros s H. apply Hs. apply (two_groups_cover metadata a b s Hu). auto. }
  assert (Hb : forall s, In s (samples_of metadata b) ->
                 mem s (columns counts) = true /\ s <> "gene_id"%string).
  { intros s H. apply Hs. apply (two_groups_cover metadata a b s Hu). auto. }
  assert (Ma : missing_from (columns counts) (samples_of metadata a) = [])
    by (apply missing_from_nil; intros s H; apply Ha, H).
  assert (Mb : missing_from (columns counts) (samples_of metadata b) = [])
    by (apply missing_from_nil; intros s H; apply Hb, H).
  rewrite Ma, Mb. simpl orb. cbv iota.
  destruct (getitem_ok F num counts _ Ha) as (ia & _ & ->).
  destruct (getitem_ok F num counts _ Hb) as (ib & _ & ->).
  rewrite Hr. reflexivity.
Qed.

Lemma empty_gene_set_raises_witness :
  let counts : CountsFrame PrimFloat.float :=
    {| columns := ["gene_id"; "S1"; "S2"; "S3"; "S4"]%string; rows := [] |} in
  let metadata :=
    {| md_columns := ["sample_id"; "condition"]%string;
       md_rows := [{| sample_id := "S1"; condition := "A" |};
                   {| sample_id := "S2"; condition := "A" |};
                   {| sample_id := "S3"; condition := "B" |};
                   {| sample_id := "S4"; condition := "B" |}] |} in
  differential_expression.main PrimFloat.sqrt (fun _ t => t)
    argsort_stable argsort_stable counts metadata
  = Raise (KeyError "p_value").
Proof.
  intros counts metadata.
  apply empty_gene_set_raises; try reflexivity.
  intros s [<-|[<-|[<-|[<-|[]]]]]; split; (reflexivity || discriminate).
Defined.

(** The correction itself is a no-op on no p-value, whatever [argsort]
    returns. *)
Lemma benjamini_hochberg_nil (F : Type) (num : Number F) argsort :
  benjamini_hochberg argsort (@nil F) = [].
Proof.
  apply length_zero_iff_nil. apply (length_benjamini_hochberg argsort []).
Qed.

(** ** The two insertion argsorts are admissible *)

Section insertion.
Context {F : Type} {num : Number F}.
Hypothesis sort_le_total : forall x y : F, sort_le x y = false -> sort_le y x = true.

Lemma is_sorted_cons2 (x y : F) l :
  is_sorted (x :: y :: l) = sort_le x y && is_sorted (y :: l).
Proof. reflexivity. Qed.

Lemma insert_index_perm (a : list F) i l :
  Permutation (i :: l) (insert_index a i l).
Proof.
  induction l as [|j l IH]; simpl; [reflexivity|].
  destruct (sort_le _ _); [reflexivity|].
  rewrite perm_swap. constructor. exact IH.
Qed.

Lemma insert_index_after_perm (a : list F) i l :
  Permutation (i :: l) (insert_index_after a i l).
Proof.
  induction l as [|j l IH]; simpl; [reflexivity|].
  destruct (sort_le _ _); [|reflexivity].
  rewrite perm_swap. constructor. exact IH.
Qed.

Lemma insert_index_sorted (a : list F) i l :
  is_sorted (take a l) = true -> is_sorted (take a (insert_index a i l)) = true.
Proof.
  induction l as [|j l IH]; intros H; [reflexivity|].
  simpl insert_index.
  destruct (sort_le (nth i a (of_Z 0)) (nth j a (of_Z 0))) eqn:E.
  - change (take a (i :: j :: l))
      with (nth i a (of_Z 0) :: nth j a (of_Z 0) :: take a l).
    rewrite is_sorted_cons2, E. exact H.
  - apply sort_le_total in E.
    assert (Hl : is_sorted (take a l) = true).
    { destruct l as [|k l]; [reflexivity|].
      change (take a (j :: k :: l))
        with (nth j a (of_Z 0) :: nth k a (of_Z 0) :: take a l) in H.
      rewrite is_sorted_cons2 in H. apply andb_true_iff in H. apply H. }
    specialize (IH Hl).
    destruct l as [|k l].
    + simpl. rewrite E. reflexivity.
    + simpl insert_index in *.
      destruct (sort_le (nth i a (of_Z 0)) (nth k a (of_Z 0))) eqn:E2.
      * change (is_sorted (nth j a (of_Z 0) :: nth i a (of_Z 0)
                           :: take a (k :: l)) = true).
        rewrite is_sorted_cons2, E. exact IH.
      * change (take a (j :: k :: l))
          with (nth j a (of_Z 0) :: nth k a (of_Z 0) :: take a l) in H.
        rewrite is_sorted_cons2 in H. apply andb_true_iff in H as [Hjk _].
        change (is_sorted (nth j a (of_Z 0) :: nth k a (of_Z 0)
                           :: take a (insert_index a i l)) = true).
        rewrite is_sorted_cons2, Hjk. exact IH.
Qed.

Lemma insert_index_after_sorted (a : list F) i l :
  is_sorted (take a l) = true ->
  is_sorted (take a (insert_index_after a i l)) = true.
Proof.
  induction l as [|j l IH]; intros H; [reflexivity|].
  simpl insert_index_after.
  destruct (sort_le (nth j a (of_Z 0)) (nth i a (of_Z 0))) eqn:E.
  - assert (Hl : is_sorted (take a l) = true).
    { destruct l as [|k l]; [reflexivity|].
      change (take a (j :: k :: l))
        with (nth j a (of_Z 0) :: nth k a (of_Z 0) :: take a l) in H.
      rewrite is_sorted_cons2 in H. apply andb_true_iff in H. apply H. }
    specialize (IH Hl).
    destruct l as [|k l].
    + simpl. rewrite E. reflexivity.
    + simpl insert_index_after in *.
      destruct (sort_le (nth k a (of_Z 0)) (nth i a (of_Z 0))) eqn:E2.
      * change (take a (j :: k :: l))
          with (nth j a (of_Z 0) :: nth k a (of_Z 0) :: take a l) in H.
        rewrite is_sorted_cons2 in H. apply andb_true_iff in H as [Hjk _].
        change (is_sorted (nth j a (of_Z 0) :: nth k a (of_Z 0)
                           :: take a (insert_index_after a i l)) = true).
        rewrite is_sorted_cons2, Hjk. exact IH.
      * change (is_sorted (nth j a (of_Z 0) :: nth i a (of_Z 0)
                           :: take a (k :: l)) = true).
        rewrite is_sorted_cons2, E. exact IH.
  - apply sort_le_total in E.
    change (take a (i :: j :: l))
      with (nth i a (of_Z 0) :: nth j a (of_Z 0) :: take a l).
    rewrite is_sorted_cons2, E. exact H.
Qed.

Lemma perm_index_permutation idx n :
  Permutation (seq 0 n) idx -> is_index_permutation idx n = true.
Proof.
  intros P. unfold is_index_permutation. apply andb_true_iff. split.
  - apply Nat.eqb_eq. rewrite <- (Permutation_length P). apply length_seq.
  - apply forallb_forall. intros i Hi. apply existsb_exists.
    exists i. split; [apply (Permutation_in _ P Hi) | apply Nat.eqb_refl].
Qed.

Lemma fold_insert_index (a : list F) (l : list nat) :
  Permutation l (fold_right (insert_index a) [] l)
  /\ is_sorted (take a (fold_right (insert_index a) [] l)) = true.
Proof.
  induction l as [|i l [P S]]; simpl; [split; reflexivity|]. split.
  - rewrite <- insert_index_perm. constructor. exact P.
  - apply insert_index_sorted, S.
Qed.

Lemma fold_insert_index_after (a : list F) (l : list nat) :
  Permutation l (fold_right (insert_index_after a) [] l)
  /\ is_sorted (take a (fold_right (insert_index_after a) [] l)) = true.
Proof.
  induction l as [|i l [P S]]; simpl; [split; reflexivity|]. split.
  - rewrite <- insert_index_after_perm. constructor. exact P.
  - apply insert_index_after_sorted, S.
Qed.

Lemma argsort_stable_admissible (a : list F) :
  is_argsort a (argsort_stable a) = true.
Proof.
  unfold is_argsort, argsort_stable.
  destruct (fold_insert_index a (seq 0 (length a))) as [P S].
  apply andb_true_iff. split; [apply perm_index_permutation, P | exact S].
Qed.

Lemma argsort_reversing_ties_admissible (a : list F) :
  is_argsort a (argsort_reversing_ties a) = true.
Proof.
  unfold is_argsort, argsort_reversing_ties.
  destruct (fold_insert_index_after a (seq 0 (length a))) as [P S].
  apply andb_true_iff. split; [apply perm_index_permutation, P | exact S].
Qed.

End insertion.

Lemma sort_le_total_exact (x y : Q) : sort_le x y = false -> sort_le y x = true.
Proof.
  unfold sort_le; simpl. rewrite !orb_false_r. intros H.
  apply Qle_bool_false in H. apply Qle_bool_iff. apply Qlt_le_weak, H.
Qed.

Lemma argsort_stable_exact (a : list Q) : is_argsort a (argsort_stable a) = true.
Proof. apply argsort_stable_admissible, sort_le_total_exact. Qed.

Lemma argsort_reversing_ties_exact (a : list Q) :
  is_argsort a (argsort_reversing_ties a) = true.
Proof. apply argsort_reversing_ties_admissible, sort_le_total_exact. Qed.

(** ** The final sort *)

Section sort_values_facts.
Import differential_expression.
Context {F : Type} {num : Number F}.
Variable pd_argsort : list F -> list nat.

Lemma flat_map_pick_seq (prefix df : list (ResultRow F)) :
  flat_map (pick (prefix ++ df)) (seq (length prefix) (length df)) = df.
Proof.
  revert prefix. induction df as [|r df IH]; intros prefix; [reflexivity|].
  simpl. unfold pick at 1.
  rewrite nth_error_app2, Nat.sub_diag by lia. simpl.
  f_equal. specialize (IH (prefix ++ [r])).
  rewrite <- app_assoc, length_app in IH. simpl in IH.
  rewrite Nat.add_1_r in IH. exact IH.
Qed.

Lemma sort_values_perm (df : list (ResultRow F)) :
  is_index_permutation (pd_argsort (map (fun r => p_value (test r)) df))
                       (length df) = true ->
  Permutation df (sort_values pd_argsort df).
Proof.
  intros H. apply index_permutation_perm in H.
  unfold sort_values.
  transitivity (flat_map (pick df) (seq 0 (length df))).
  - pose proof (flat_map_pick_seq [] df) as E. simpl in E. rewrite E.
    reflexivity.
  - apply Permutation_flat_map, H.
Qed.

Lemma map_flat_map_pick (df : list (ResultRow F)) (order : list nat) :
  (forall i, In i order -> i < length df) ->
  map (fun r => p_value (test r)) (flat_map (pick df) order)
  = take (map (fun r => p_value (test r)) df) order.
Proof.
  induction order as [|i order IH]; intros H; [reflexivity|].
  simpl. rewrite map_app, IH by (intros; apply H; right; assumption).
  f_equal. unfold pick.
  assert (Hi : i < length df) by (apply H; left; reflexivity).
  destruct (nth_error df i) as [r|] eqn:E.
  - simpl. f_equal. symmetry. apply nth_error_nth.
    rewrite nth_error_map, E. reflexivity.
  - apply nth_error_None in E. lia.
Qed.

Lemma sort_values_keys (df : list (ResultRow F)) :
  is_index_permutation (pd_argsort (map (fun r => p_value (test r)) df))
                       (length df) = true ->
  map (fun r => p_value (test r)) (sort_values pd_argsort df)
  = take (map (fun r => p_value (test r)) df)
         (pd_argsort (map (fun r => p_value (test r)) df)).
Proof.
  intros H. destruct (index_permutation_facts _ _ H) as (_ & _ & Hin).
  apply map_flat_map_pick. intros i Hi. apply Hin, Hi.
Qed.

End sort_values_facts.

(** ** Successful runs of the engine *)

Section engine_runs.
Import differential_expression.
Context {F : Type} {num : Number F}.
Variable sqrt : F -> F.
Variable t_two_sided : F -> F -> F.
Variables np_argsort pd_argsort : list F -> list nat.

Lemma getitem_inv (counts : CountsFrame F) names g :
  getitem counts names = Ok g ->
  exists idx, locate (data_columns (columns counts)) names = Ok idx
              /\ g = map (select_cells idx) (rows counts).
Proof.
  unfold getitem. intros H.
  destruct (locate (data_columns (columns counts)) names) as [idx|e];
    simpl in H; [|discriminate].
  inversion H. eauto.
Qed.

Lemma main_ok_inv counts metadata tbl :
  main sqrt t_two_sided np_argsort pd_argsort counts metadata = Ok tbl ->
  exists cond_a cond_b ia ib,
    mem "gene_id" (columns counts) = true
    /\ mem "sample_id" (md_columns metadata) && mem "condition" (md_columns metadata) = true
    /\ negb (is_nil (missing_from (columns counts) (samples_of metadata cond_a)))
       || negb (is_nil (missing_from (columns counts) (samples_of metadata cond_b)))
       = false
    /\ rows counts <> []
    /\ unique (map condition (md_rows metadata)) = [cond_a; cond_b]
    /\ locate (data_columns (columns counts)) (samples_of metadata cond_a) = Ok ia
    /\ locate (data_columns (columns counts)) (samples_of metadata cond_b) = Ok ib
    /\ tbl = {| cond_a_name := cond_a; cond_b_name := cond_b;
                table := sort_values pd_argsort
                           (add_p_adj np_argsort
                              (map (per_gene sqrt t_two_sided
                                      (map (select_cells ib) (rows counts)))
                                   (map (select_cells ia) (rows counts)))) |}.
Proof.
  unfold main. intros H.
  destruct (mem "gene_id" (columns counts)); [|discriminate].
  destruct (mem "sample_id" (md_columns metadata)
            && mem "condition" (md_columns metadata)); [|discriminate].
  simpl negb in H. cbv iota in H.
  destruct (unique (map condition (md_rows metadata)))
    as [|a [|b [|c l]]]; try discriminate.
  cbv zeta in H.
  destruct (negb (is_nil (missing_from (columns counts) (samples_of metadata a)))
            || negb (is_nil (missing_from (columns counts) (samples_of metadata b))))
    eqn:Hmiss; [discriminate|].
  destruct (getitem counts (samples_of metadata a)) as [ga|e] eqn:Ea;
    simpl in H; [|discriminate].
  destruct (getitem counts (samples_of metadata b)) as [gb|e] eqn:Eb;
    simpl in H; [|discriminate].
  destruct (is_nil (map (per_gene sqrt t_two_sided gb) ga)) eqn:Hnil;
    [discriminate|].
  apply getitem_inv in Ea as (ia & La & ->).
  apply getitem_inv in Eb as (ib & Lb & ->).
  inversion H. exists a, b, ia, ib.
  repeat (split; [solve [auto]|]).
  split; [|auto].
  intros E. rewrite E in Hnil. discriminate.
Qed.

Lemma map_test_add_p_adj (records : list (TestRecord F)) :
  map test (add_p_adj np_argsort records) = records.
Proof.
  unfold add_p_adj.
  pose proof (length_benjamini_hochberg np_argsort (map p_value records)) as L.
  rewrite length_map in L. revert L.
  generalize (benjamini_hochberg np_argsort (map p_value records)) as q.
  induction records as [|r records IH]; intros [|x q] L; simpl in *;
    try discriminate; [reflexivity|].
  f_equal. apply IH. lia.
Qed.

Lemma length_add_p_adj (records : list (TestRecord F)) :
  length (add_p_adj np_argsort records) = length records.
Proof. rewrite <- (map_test_add_p_adj records) at 2. symmetry. apply length_map. Qed.

End engine_runs.

(** ** Exchanging the two groups *)

Section exchange.
Import differential_expression.
Context {F : Type} {num : Number F}.
Hypothesis laws : SwapLaws F num.
Variable sqrt : F -> F.
Variable t_two_sided : F -> F -> F.
Local Open Scope num_scope.





Variables np_argsort pd_argsort : list F -> list nat.








End exchange.

Lemma exact_swap_laws : SwapLaws Q exact.
Proof.
  constructor; simpl.
  - intros [a b] [c d]. unfold Qplus. simpl.
    f_equal; [ring | apply Pos.mul_comm].
  - intros [a b] [c d]. left. unfold Qminus, Qplus, Qopp. simpl.
    f_equal; [ring | apply Pos.mul_comm].
  - intros [a b] s. unfold Qdiv. destruct (/ s)%Q as [c d].
    unfold Qmult, Qopp. simpl. f_equal. ring.
  - intros [a b]. unfold Qabs, Qopp. simpl. f_equal. apply Z.abs_opp.
  - reflexivity.
  - discriminate.
Qed.

(** ** Degenerate numbers in binary64 *)

(** C2, as the code has it.  The engine has no rule for degenerate variance:
    it emits what the Welch test returns.  When both variance terms and the
    difference of the means are computed as zero, the statistic is 0/0 and
    the emitted raw p-value is NaN (with [log2_fc] zero); no error is
    raised, [per_gene] being total. *)
Theorem degenerate_gene_emits_nan
  (t_two_sided : float -> float -> float)
  (group_b : list (Row float)) (row_a : Row float) :
  let a_vals := cells row_a in
  let b_vals := loc group_b (label row_a) in
  (var a_vals / of_Z (Z.of_nat (length a_vals)))%num = 0%float ->
  (var b_vals / of_Z (Z.of_nat (length b_vals)))%num = 0%float ->
  (mean a_vals - mean b_vals)%num = 0%float ->
  let record := differential_expression.per_gene PrimFloat.sqrt t_two_sided
                  group_b row_a in
  differential_expression.p_value record = nan
  /\ differential_expression.log2_fc record = 0%float.
Proof.
  intros a_vals b_vals Ha Hb Hd record.
  unfold record, differential_expression.per_gene.
  cbn [differential_expression.p_value differential_expression.log2_fc].
  fold a_vals b_vals. split; [|exact Hd].
  unfold ttest_ind_pvalue, welch_statistic. cbv zeta.
  rewrite Ha, Hb, Hd. reflexivity.
Qed.

Lemma degenerate_gene_emits_nan_witness :
  let group_b := [{| label := "X"%string; cells := [1; 1; 1]%float |};
                  {| label := "Y"%string; cells := [1; 1; 1]%float |}] in
  let row_a := {| label := "X"%string; cells := [1; 1; 1]%float |} in
  let record := differential_expression.per_gene PrimFloat.sqrt (fun _ _ => 1%float)
                  group_b row_a in
  differential_expression.p_value record = nan
  /\ differential_expression.log2_fc record = 0%float.
Proof.
  intros group_b row_a.
  apply (degenerate_gene_emits_nan (fun _ _ => 1%float) group_b row_a);
    reflexivity.
Defined.

(** C2 refuted.  Scenario 1's gene X (1, 1, 1 against 1, 1, 1) run through
    the engine: whatever the tail function of the t distribution is, the
    emitted raw p-value is not 1. *)
Lemma degenerate_gene_not_one :
  let counts : CountsFrame float :=
    {| columns := ["gene_id"; "S1"; "S2"; "S3"; "S4"; "S5"; "S6"]%string;
       rows := [{| label := "X"%string; cells := [1; 1; 1; 1; 1; 1]%float |}] |} in
  let metadata :=
    {| md_columns := ["sample_id"; "condition"]%string;
       md_rows := [{| sample_id := "S1"; condition := "A" |};
                   {| sample_id := "S2"; condition := "A" |};
                   {| sample_id := "S3"; condition := "A" |};
                   {| sample_id := "S4"; condition := "B" |};
                   {| sample_id := "S5"; condition := "B" |};
                   {| sample_id := "S6"; condition := "B" |}] |} in
  ~ (exists t_two_sided tbl,
       differential_expression.main PrimFloat.sqrt t_two_sided
         argsort_stable argsort_stable counts metadata = Ok tbl
       /\ forall r, In r (differential_expression.table tbl) ->
            PrimFloat.eqb (differential_expression.p_value
                             (differential_expression.test r)) 1%float = true).
Proof.
  intros counts metadata (t_two_sided & tbl & H & Hall).
  vm_compute in H. inversion H; subst; clear H.
  specialize (Hall _ (or_introl eq_refl)).
  vm_compute in Hall. discriminate.
Qed.


(** ** The top rank, in any arithmetic *)

Section top_rank.
Context {F : Type} {num : Number F}.
Variable argsort : list F -> list nat.
Local Open Scope num_scope.

Lemma nth_candidates_any n (sp : list F) k :
  k < length sp ->
  nth k (candidates n sp) (of_Z 0)
  = nth k sp (of_Z 0) * of_Z (Z.of_nat n) / of_Z (Z.of_nat (S k)).
Proof.
  intros Hk. unfold candidates.
  set (h := fun kp : nat * F => _).
  rewrite (nth_indep (map h _) (of_Z 0) (h (0, of_Z 0)))
    by (rewrite length_map, length_combine, length_seq; lia).
  rewrite (map_nth h).
  rewrite combine_nth by (rewrite length_seq; reflexivity).
  rewrite seq_nth by lia. reflexivity.
Qed.

Lemma step_up_top (c : list F) d :
  nth (length c - 1) (step_up c) d = nth (length c - 1) c d.
Proof.
  induction c as [|x c IH]; [reflexivity|].
  destruct c as [|y c]; [reflexivity|].
  pose proof (length_step_up (y :: c)) as L.
  change (step_up (x :: y :: c)) with
    (match step_up (y :: c) with
     | [] => [x]
     | (z :: _) as r => minimum z x :: r
     end).
  destruct (step_up (y :: c)) as [|z r] eqn:E; [discriminate L|].
  replace (length (x :: y :: c) - 1)%nat with (S (length (y :: c) - 1))%nat
    by (simpl; lia).
  exact IH.
Qed.

(** The gene ranked last receives [clip (p * n / n) 0 1], the product and
    the quotient taken in the arithmetic at hand. *)
Lemma bh_top_rank (p : list F) :
  is_index_permutation (argsort p) (length p) = true ->
  0 < length p ->
  let top := nth (length p - 1) (argsort p) 0 in
  nth top (benjamini_hochberg argsort p) (of_Z 0)
  = clip01 (nth top p (of_Z 0) * of_Z (Z.of_nat (length p))
            / of_Z (Z.of_nat (length p))).
Proof.
  intros Hp Hn top.
  destruct (index_permutation_facts _ _ Hp) as (Hl & _ & _).
  pose proof (bh_in_rank_order argsort p Hp) as E.
  apply (f_equal (fun l => nth (length p - 1) l (of_Z 0))) in E.
  rewrite nth_take in E by lia. fold top in E. rewrite E.
  set (c := candidates (length p) (take p (argsort p))).
  assert (Lc : length c = length p)
    by (unfold c; rewrite length_candidates, length_take; exact Hl).
  rewrite (nth_indep (map clip01 _) (of_Z 0) (clip01 (of_Z 0)))
    by (rewrite length_map, length_step_up; lia).
  rewrite (map_nth clip01). f_equal.
  rewrite <- Lc at 1. rewrite step_up_top, Lc.
  unfold c. rewrite nth_candidates_any by (rewrite length_take; lia).
  rewrite nth_take by lia. fold top.
  replace (S (length p - 1))%nat with (length p) by lia. reflexivity.
Qed.

End top_rank.

(** ** Monotonicity from the order laws *)

Section order_laws.
Context {F : Type} {num : Number F}.
Hypothesis laws : OrderLaws F num.

Lemma minimum_laws (a b : F) :
  not_nan a -> not_nan b ->
  not_nan (minimum a b) /\ fle (minimum a b) a /\ fle (minimum a b) b.
Proof.
  unfold not_nan, fle, minimum. intros Ha Hb. rewrite Ha, orb_false_r.
  destruct (fleb a b) eqn:E.
  - repeat split; auto. apply (leb_refl _ _ laws), Ha.
  - repeat split; auto.
    + apply (leb_total _ _ laws); assumption.
    + apply (leb_refl _ _ laws), Hb.
Qed.

Lemma clip01_cases (x : F) :
  not_nan x ->
  (fleb (of_Z 0) x = false /\ clip01 x = of_Z 0)
  \/ (fle (of_Z 0) x /\ fle x (of_Z 1) /\ clip01 x = x)
  \/ (fle (of_Z 0) x /\ fleb x (of_Z 1) = false /\ clip01 x = of_Z 1).
Proof.
  unfold not_nan, fle, clip01, clip. intros Hx.
  rewrite (ltb_leb _ _ laws x (of_Z 0) Hx (zero_not_nan _ _ laws)).
  destruct (fleb (of_Z 0) x) eqn:E0; simpl.
  - right.
    rewrite (ltb_leb _ _ laws _ _ (one_not_nan _ _ laws) Hx).
    destruct (fleb x (of_Z 1)) eqn:E1; simpl; [left | right]; auto.
  - left.
    rewrite (ltb_leb _ _ laws _ _ (one_not_nan _ _ laws) (zero_not_nan _ _ laws)).
    rewrite (zero_le_one _ _ laws). simpl. auto.
Qed.

Lemma clip01_not_nan (x : F) : not_nan x -> not_nan (clip01 x).
Proof.
  intros Hx. destruct (clip01_cases x Hx) as [[_ ->]|[(_ & _ & ->)|(_ & _ & ->)]];
    [apply (zero_not_nan _ _ laws) | exact Hx | apply (one_not_nan _ _ laws)].
Qed.

Lemma clip01_monotone (x y : F) :
  not_nan x -> not_nan y -> fle x y -> fle (clip01 x) (clip01 y).
Proof.
  intros Hx Hy Hxy.
  pose proof (zero_not_nan _ _ laws) as N0. pose proof (one_not_nan _ _ laws) as N1.
  pose proof (leb_trans _ _ laws) as T. pose proof (leb_refl _ _ laws) as R.
  unfold fle, not_nan in *.
  pose proof (zero_le_one _ _ laws) as Z01.
  destruct (clip01_cases x Hx) as [[X0 ->]|[(X0 & X1 & ->)|(X0 & X1 & ->)]];
  destruct (clip01_cases y Hy) as [[Y0 ->]|[(Y0 & Y1 & ->)|(Y0 & Y1 & ->)]].
  - apply R, N0.
  - exact Y0.
  - exact Z01.
  - rewrite (T (of_Z 0) x y X0 Hxy) in Y0. discriminate.
  - exact Hxy.
  - exact X1.
  - rewrite (T (of_Z 0) x y X0 Hxy) in Y0. discriminate.
  - rewrite (T x y (of_Z 1) Hxy Y1) in X1. discriminate.
  - apply R, N1.
Qed.

Lemma step_up_laws (c : list F) :
  Forall not_nan c -> Forall not_nan (step_up c) /\ Sorted fle (step_up c).
Proof.
  induction c as [|x c IH]; intros H; [split; constructor|].
  inversion H as [|? ? Hx Hc]; subst. destruct (IH Hc) as [N S].
  simpl. destruct (step_up c) as [|y r] eqn:E.
  - split; repeat constructor. exact Hx.
  - inversion N as [|? ? Hy Hr]; subst.
    destruct (minimum_laws y x Hy Hx) as (M1 & M2 & M3).
    split; constructor; auto.
Qed.

Lemma step_up_tail (x : F) c k d :
  nth (S k) (step_up (x :: c)) d = nth k (step_up c) d.
Proof.
  simpl. destruct (step_up c) as [|y r]; [destruct k|]; reflexivity.
Qed.

Lemma step_up_head (x y : F) c d :
  nth 0 (step_up (x :: y :: c)) d = minimum (nth 0 (step_up (y :: c)) d) x.
Proof.
  pose proof (length_step_up (y :: c)) as L.
  change (step_up (x :: y :: c)) with
    (match step_up (y :: c) with [] => [x] | (z :: _) as r => minimum z x :: r end).
  destruct (step_up (y :: c)); [discriminate L | reflexivity].
Qed.

(** Away from NaN the step-up value of a rank is the least of the candidates
    of that rank and of the ranks above it: it lies below each of them and is
    one of them. *)
Lemma step_up_least (c : list F) (d : F) :
  Forall not_nan c ->
  forall k, k < length c ->
    not_nan (nth k (step_up c) d)
    /\ (forall j, k <= j < length c -> fle (nth k (step_up c) d) (nth j c d))
    /\ (exists j, k <= j < length c /\ nth k (step_up c) d = nth j c d).
Proof.
  induction c as [|x c IH]; intros N k Hk; [simpl in Hk; lia|].
  inversion N as [|? ? Hx Hc]; subst.
  destruct k as [|k].
  - destruct c as [|y c].
    + simpl. split; [exact Hx|]. split.
      * intros j Hj. simpl in Hj. replace j with 0 by lia.
        apply (leb_refl _ _ laws), Hx.
      * exists 0. simpl. split; [lia | reflexivity].
    + rewrite step_up_head.
      destruct (IH Hc 0 ltac:(simpl; lia)) as (N0 & L0 & (j0 & Hj0 & E0)).
      destruct (minimum_laws _ x N0 Hx) as (M1 & M2 & M3).
      split; [exact M1|]. split.
      * intros [|j] Hj; [exact M3|].
        apply (leb_trans _ _ laws) with (nth 0 (step_up (y :: c)) d); [exact M2|].
        apply L0. simpl in *. lia.
      * unfold minimum.
        destruct ((nth 0 (step_up (y :: c)) d <=? x)%num
                  || isnan (nth 0 (step_up (y :: c)) d)).
        -- exists (S j0). split; [simpl in *; lia | exact E0].
        -- exists 0. split; [simpl; lia | reflexivity].
  - rewrite step_up_tail.
    destruct (IH Hc k ltac:(simpl in Hk; lia)) as (N0 & L0 & (j0 & Hj0 & E0)).
    split; [exact N0|]. split.
    + intros [|j] Hj; [lia|]. apply L0. simpl in Hj. lia.
    + exists (S j0). split; [simpl; lia | exact E0].
Qed.

Lemma map_clip01_sorted (l : list F) :
  Forall not_nan l -> Sorted fle l -> Sorted fle (map clip01 l).
Proof.
  induction l as [|x l IH]; intros N S; [constructor|].
  inversion N as [|? ? Hx Hl]; subst. inversion S as [|? ? S' Hd]; subst.
  simpl. constructor; [apply IH; assumption|].
  destruct l as [|y l]; [constructor|].
  inversion Hd; subst. inversion Hl; subst.
  constructor. apply clip01_monotone; assumption.
Qed.

Lemma le_transitive : Transitive fle.
Proof. intros x y z. apply (leb_trans _ _ laws). Qed.

Theorem bh_monotone_any (argsort : list F -> list nat) (p : list F) :
  is_index_permutation (argsort p) (length p) = true ->
  forallb (fun x => negb (isnan x))
          (candidates (length p) (take p (argsort p))) = true ->
  StronglySorted fle (take (benjamini_hochberg argsort p) (argsort p)).
Proof.
  intros Hp Hc. rewrite (bh_in_rank_order argsort p Hp).
  apply Sorted_StronglySorted; [exact le_transitive|].
  assert (N : Forall not_nan (candidates (length p) (take p (argsort p)))).
  { apply Forall_forall. intros x Hx. rewrite forallb_forall in Hc.
    apply negb_true_iff, Hc, Hx. }
  destruct (step_up_laws _ N) as [N' S].
  apply map_clip01_sorted; assumption.
Qed.

End order_laws.

(** ** The order laws of binary64 and of the rationals *)

Ltac solve_key :=
  simpl;
  repeat match goal with
         | |- context [Z.compare ?a ?b] => destruct (Z.compare_spec a b); simpl
         | |- context [Pos.compare_cont Eq ?a ?b] =>
             change (Pos.compare_cont Eq a b) with (Pos.compare a b);
             destruct (Pos.compare_spec a b); simpl
         end;
  split; intros; try discriminate; try reflexivity; try lia.

Lemma SFleb_key x y :
  sf_is_nan x = false -> sf_is_nan y = false ->
  (SFleb x y = true <-> key_le (sf_key x) (sf_key y)).
Proof.
  intros Hx Hy.
  destruct x as [sx|sx| |sx mx ex], y as [sy|sy| |sy my ey];
    try discriminate; unfold SFleb, SFcompare, sf_key, key_le;
    try (destruct sx); try (destruct sy); solve_key.
Qed.

Lemma SFltb_key x y :
  sf_is_nan x = false -> sf_is_nan y = false ->
  (SFltb x y = true <-> ~ key_le (sf_key y) (sf_key x)).
Proof.
  intros Hx Hy.
  destruct x as [sx|sx| |sx mx ex], y as [sy|sy| |sy my ey];
    try discriminate; unfold SFltb, SFcompare, sf_key, key_le;
    try (destruct sx); try (destruct sy); solve_key.
Qed.

Lemma is_nan_spec (x : float) : PrimFloat.is_nan x = sf_is_nan (Prim2SF x).
Proof.
  unfold PrimFloat.is_nan. rewrite FloatAxioms.eqb_spec. unfold SFeqb.
  destruct (Prim2SF x) as [s|s| |s m e]; simpl; try reflexivity.
  - destruct s; reflexivity.
  - destruct s; rewrite Z.compare_refl;
      change (Pos.compare_cont Eq m m) with (Pos.compare m m);
      rewrite Pos.compare_refl; reflexivity.
Qed.

Lemma float_leb_refl x : PrimFloat.is_nan x = false -> (x <=? x)%float = true.
Proof.
  rewrite is_nan_spec, FloatAxioms.leb_spec. intros H.
  apply SFleb_key; try assumption.
  unfold key_le. destruct (sf_key (Prim2SF x)) as [[a b] c]. lia.
Qed.

Lemma float_leb_total x y :
  PrimFloat.is_nan x = false -> PrimFloat.is_nan y = false ->
  (x <=? y)%float = false -> (y <=? x)%float = true.
Proof.
  rewrite !is_nan_spec, !FloatAxioms.leb_spec. intros Hx Hy H.
  apply SFleb_key; try assumption.
  assert (N : ~ key_le (sf_key (Prim2SF x)) (sf_key (Prim2SF y))).
  { intros K. apply SFleb_key in K; try assumption. congruence. }
  unfold key_le in *.
  destruct (sf_key (Prim2SF x)) as [[a b] c], (sf_key (Prim2SF y)) as [[a' b'] c'].
  lia.
Qed.

Lemma float_leb_not_nan x y :
  (x <=? y)%float = true -> PrimFloat.is_nan x = false /\ PrimFloat.is_nan y = false.
Proof.
  rewrite !is_nan_spec, FloatAxioms.leb_spec. unfold SFleb, SFcompare.
  destruct (Prim2SF x), (Prim2SF y); simpl; intros H; try discriminate; auto.
Qed.

Lemma float_leb_trans x y z :
  (x <=? y)%float = true -> (y <=? z)%float = true -> (x <=? z)%float = true.
Proof.
  intros H1 H2.
  destruct (float_leb_not_nan _ _ H1) as [Hx Hy].
  destruct (float_leb_not_nan _ _ H2) as [_ Hz].
  rewrite is_nan_spec in Hx, Hy, Hz. rewrite FloatAxioms.leb_spec in *.
  apply SFleb_key in H1; try assumption.
  apply SFleb_key in H2; try assumption.
  apply SFleb_key; try assumption.
  unfold key_le in *.
  destruct (sf_key (Prim2SF x)) as [[a b] c], (sf_key (Prim2SF y)) as [[a' b'] c'],
           (sf_key (Prim2SF z)) as [[a'' b''] c''].
  lia.
Qed.

Lemma float_ltb_leb x y :
  PrimFloat.is_nan x = false -> PrimFloat.is_nan y = false ->
  (x <? y)%float = negb (y <=? x)%float.
Proof.
  rewrite !is_nan_spec, FloatAxioms.ltb_spec, FloatAxioms.leb_spec. intros Hx Hy.
  destruct (SFltb (Prim2SF x) (Prim2SF y)) eqn:E1, (SFleb (Prim2SF y) (Prim2SF x)) eqn:E2;
    try reflexivity.
  - apply SFltb_key in E1; try assumption. apply SFleb_key in E2; try assumption.
    contradiction.
  - exfalso.
    assert (N1 : ~ ~ key_le (sf_key (Prim2SF y)) (sf_key (Prim2SF x))).
    { intros K. apply SFltb_key in K; try assumption. congruence. }
    assert (N2 : ~ key_le (sf_key (Prim2SF y)) (sf_key (Prim2SF x))).
    { intros K. apply SFleb_key in K; try assumption. congruence. }
    contradiction.
Qed.

Lemma binary64_order_laws : OrderLaws float binary64.
Proof.
  constructor; simpl.
  - apply float_leb_refl.
  - apply float_leb_total.
  - apply float_leb_trans.
  - apply float_ltb_leb.
  - reflexivity.
  - reflexivity.
  - reflexivity.
  - reflexivity.
Qed.

Lemma exact_order_laws : OrderLaws Q exact.
Proof.
  constructor; simpl; try reflexivity.
  - intros x _. apply Qle_bool_iff, Qle_refl.
  - intros x y _ _ H. apply Qle_bool_iff, Qlt_le_weak, Qle_bool_false, H.
  - intros x y z H1 H2. apply Qle_bool_iff in H1, H2.
    apply Qle_bool_iff. eapply Qle_trans; eassumption.
Qed.

(** ** The symmetry laws of binary64 *)








(** ** C9: exchanging the two labels *)



(** ** The emitted order *)

(** X3.  In any arithmetic, whatever ranking by ascending key the final
    [sort_values] uses, every successful run on a matrix with unique gene
    identifiers emits a table whose raw p-values ascend, NaN after every
    number, and whose rows are the genes of the matrix, each once. *)
Theorem result_table_sorted
  (F : Type) (num : Number F) (sqrt : F -> F) (t_two_sided : F -> F -> F)
  (np_argsort pd_argsort : list F -> list nat)
  (counts : CountsFrame F) (metadata : Metadata)
  (tbl : differential_expression.ResultTable F) :
  (forall keys, is_argsort keys (pd_argsort keys) = true) ->
  NoDup (map label (rows counts)) ->
  differential_expression.main sqrt t_two_sided np_argsort pd_argsort counts metadata
  = Ok tbl ->
  is_sorted
    (map (fun r => differential_expression.p_value (differential_expression.test r))
         (differential_expression.table tbl)) = true
  /\ Permutation
       (map (fun r => differential_expression.gene_id (differential_expression.test r))
            (differential_expression.table tbl))
       (map label (rows counts)).
Proof.
  intros Hpd _ H.
  apply main_ok_inv in H as (ca & cb & ia & ib & _ & _ & _ & _ & _ & _ & _ & ->).
  simpl differential_expression.table.
  set (records := map _ (map (select_cells ia) (rows counts))).
  set (df := differential_expression.add_p_adj np_argsort records).
  set (keys := map (fun r => differential_expression.p_value
                               (differential_expression.test r)) df).
  pose proof (Hpd keys) as Hk. apply andb_true_iff in Hk as [Hp Hs].
  assert (Hp' : is_index_permutation (pd_argsort keys) (length df) = true)
    by (unfold keys in Hp; rewrite length_map in Hp; exact Hp).
  split.
  - rewrite (sort_values_keys pd_argsort df Hp'). exact Hs.
  - rewrite <- (sort_values_perm pd_argsort df Hp').
    rewrite <- (map_map differential_expression.test
                  differential_expression.gene_id).
    unfold df. rewrite map_test_add_p_adj.
    unfold records. rewrite !map_map. simpl. reflexivity.
Qed.

Lemma sort_le_total_binary64 (x y : float) :
  sort_le x y = false -> sort_le y x = true.
Proof.
  unfold sort_le. simpl. intros H. apply orb_false_iff in H as [Hl Hy].
  destruct (PrimFloat.is_nan x) eqn:Hx; [apply orb_true_r|].
  rewrite (float_leb_total x y Hx Hy Hl). reflexivity.
Qed.

Lemma argsort_stable_binary64 (a : list float) :
  is_argsort a (argsort_stable a) = true.
Proof. apply argsort_stable_admissible, sort_le_total_binary64. Qed.

Lemma result_table_sorted_witness :
  let counts : CountsFrame float :=
    {| columns := ["gene_id"; "S1"; "S2"; "S3"; "S4"]%string;
       rows := [{| label := "X"; cells := [1; 2; 3; 5]%float |};
                {| label := "Y"; cells := [1; 2; 7; 9]%float |};
                {| label := "Z"; cells := [1; 2; 2; 3]%float |}] |} in
  let metadata :=
    {| md_columns := ["sample_id"; "condition"]%string;
       md_rows := [{| sample_id := "S1"; condition := "A" |};
                   {| sample_id := "S2"; condition := "A" |};
                   {| sample_id := "S3"; condition := "B" |};
                   {| sample_id := "S4"; condition := "B" |}] |} in
  exists tbl,
    differential_expression.main PrimFloat.sqrt (fun _ t => 1 / (1 + t))%float
      argsort_stable argsort_stable counts metadata = Ok tbl
    /\ is_sorted
         (map (fun r => differential_expression.p_value (differential_expression.test r))
              (differential_expression.table tbl)) = true
    /\ Permutation
         (map (fun r => differential_expression.gene_id (differential_expression.test r))
              (differential_expression.table tbl))
         (map label (rows counts)).
Proof.
  intros counts metadata. eexists. split.
  - vm_compute. reflexivity.
  - apply (result_table_sorted float binary64 PrimFloat.sqrt
             (fun _ t => 1 / (1 + t))%float
             argsort_stable argsort_stable counts metadata).
    + apply argsort_stable_binary64.
    + repeat constructor; simpl; intuition discriminate.
    + vm_compute. reflexivity.
Defined.

(** ** The specification's scenarios, run *)

(** Scenario 4: ten evenly spaced raw p-values 0.001 .. 0.010; every
    q-value is 0.01, in exact arithmetic and in binary64. *)
Example scenario_4_exact :
  map Qred (benjamini_hochberg argsort_stable
              (map (fun k => (Z.of_nat k # 1000)%Q) (seq 1 10)))
  = repeat (1 # 100)%Q 10.
Proof. vm_compute. reflexivity. Qed.

Example scenario_4_binary64 :
  benjamini_hochberg argsort_stable
    (map (fun k => (of_Z (Z.of_nat k) / of_Z 1000)%num) (seq 1 10))
  = repeat (of_Z 1 / of_Z 100)%num 10 :> list float.
Proof. vm_compute. reflexivity. Qed.

(** Scenario 1, gene Y (5, 5, 5 against 1, 1, 1): zero variance and
    different means give an infinite statistic and fold change 4; the tail
    function is asked at [t = infinity] with one degree of freedom. *)
Example scenario_1_gene_Y (t_two_sided : float -> float -> float) :
  differential_expression.per_gene PrimFloat.sqrt t_two_sided
    [{| label := "Y"%string; cells := [1; 1; 1]%float |}]
    {| label := "Y"%string; cells := [5; 5; 5]%float |}
  = {| differential_expression.gene_id := "Y"%string;
       differential_expression.mean_a := 5%float;
       differential_expression.mean_b := 1%float;
       differential_expression.log2_fc := 4%float;
       differential_expression.p_value := t_two_sided 1%float infinity |}.
Proof. vm_compute. reflexivity. Qed.

(** A NaN among the raw p-values turns every adjusted value into NaN. *)
Example nan_spreads :
  benjamini_hochberg argsort_stable [0.5; nan; 0.25]%float = [nan; nan; nan].
Proof. vm_compute. reflexivity. Qed.

(** * Further properties of the code *)

Lemma filter_none (A : Type) (f : A -> bool) (l : list A) :
  (forall y, In y l -> f y = false) -> filter f l = [].
Proof.
  induction l as [|x l IH]; intros H; [reflexivity|].
  simpl. rewrite (H x (or_introl eq_refl)). apply IH.
  intros y Hy. apply H. right. exact Hy.
Qed.

(** ** The clipped range in any ordered arithmetic *)

Section bh_range.
Context {F : Type} {num : Number F}.
Hypothesis laws : OrderLaws F num.
Variable argsort : list F -> list nat.

Lemma bh_at_rank_any (p : list F) k :
  is_index_permutation (argsort p) (length p) = true -> k < length p ->
  nth (nth k (argsort p) 0) (benjamini_hochberg argsort p) (of_Z 0)
  = clip01 (nth k (step_up (candidates (length p) (take p (argsort p)))) (of_Z 0)).
Proof.
  intros Hp Hk.
  destruct (index_permutation_facts _ _ Hp) as (Hl & _ & _).
  pose proof (bh_in_rank_order argsort p Hp) as E.
  apply (f_equal (fun l => nth k l (of_Z 0))) in E.
  rewrite nth_take in E by lia. rewrite E.
  rewrite (nth_indep (map clip01 _) (of_Z 0) (clip01 (of_Z 0)))
    by (rewrite length_map, length_step_up, length_candidates, length_take; lia).
  apply (map_nth clip01).
Qed.

(** The adjusted value of each rank, away from NaN: the clipped least of
    the candidates of that rank and above, hence never decreasing with the
    rank. *)
Lemma bh_least_candidate (p : list F) :
  let n := length p in
  let candidate k :=
    (nth (nth k (argsort p) 0) p (of_Z 0) * of_Z (Z.of_nat n)
     / of_Z (Z.of_nat (S k)))%num in
  let adjusted k := nth (nth k (argsort p) 0) (benjamini_hochberg argsort p) (of_Z 0) in
  is_index_permutation (argsort p) (length p) = true ->
  (forall k, k < n -> not_nan (candidate k)) ->
  forall k, k < n ->
    (exists v, adjusted k = clip01 v
               /\ (forall j, k <= j < n -> fle v (candidate j))
               /\ (exists j, k <= j < n /\ v = candidate j))
    /\ (forall k', k <= k' < n -> fle (adjusted k) (adjusted k')).
Proof.
  intros n candidate adjusted Hp Hc.
  destruct (index_permutation_facts _ _ Hp) as (Hl & _ & _).
  set (c := candidates (length p) (take p (argsort p))).
  assert (Lc : length c = n)
    by (unfold c; rewrite length_candidates, length_take; exact Hl).
  assert (Ec : forall j, j < n -> nth j c (of_Z 0) = candidate j).
  { intros j Hj. unfold c. rewrite nth_candidates_any by (rewrite length_take; lia).
    rewrite nth_take by lia. reflexivity. }
  assert (N : Forall not_nan c).
  { apply Forall_forall. intros x Hx.
    destruct (In_nth _ _ (of_Z 0) Hx) as (j & Hj & <-).
    rewrite Ec by lia. apply Hc. lia. }
  assert (A : forall k, k < n ->
                adjusted k = clip01 (nth k (step_up c) (of_Z 0))).
  { intros k Hk. unfold adjusted. apply bh_at_rank_any; assumption. }
  intros k Hk.
  destruct (step_up_least laws c (of_Z 0) N k ltac:(lia)) as (Nk & Lk & (jk & Hjk & Ek)).
  split.
  - exists (nth k (step_up c) (of_Z 0)). split; [apply A, Hk|]. split.
    + intros j Hj. rewrite <- Ec by lia. apply Lk. lia.
    + exists jk. split; [lia|]. rewrite Ek. apply Ec. lia.
  - intros k' Hk'. rewrite (A k Hk), (A k') by lia.
    destruct (step_up_least laws c (of_Z 0) N k' ltac:(lia)) as (Nk' & _ & (j' & Hj' & E')).
    apply (clip01_monotone laws); [exact Nk | exact Nk' |].
    rewrite E'. apply Lk. lia.
Qed.

(** X4.  When no candidate [p * n / rank] is NaN, every adjusted value lies
    between 0 and 1 in the order of the arithmetic at hand, binary64
    included. *)
Theorem bh_in_unit_interval (p : list F) (i : nat) :
  is_index_permutation (argsort p) (length p) = true ->
  forallb (fun x => negb (isnan x))
          (candidates (length p) (take p (argsort p))) = true ->
  i < length p ->
  fle (of_Z 0) (nth i (benjamini_hochberg argsort p) (of_Z 0))
  /\ fle (nth i (benjamini_hochberg argsort p) (of_Z 0)) (of_Z 1).
Proof.
  intros Hp Hc Hi.
  destruct (index_permutation_facts _ _ Hp) as (Hl & _ & _).
  destruct (index_permutation_position _ _ i Hp Hi) as (k & Hk & <-).
  rewrite bh_at_rank_any by assumption.
  set (c := candidates (length p) (take p (argsort p))) in *.
  assert (N : Forall not_nan c).
  { apply Forall_forall. intros x Hx. rewrite forallb_forall in Hc.
    apply negb_true_iff, Hc, Hx. }
  destruct (step_up_laws laws c N) as [N' _].
  assert (Hx : not_nan (nth k (step_up c) (of_Z 0))).
  { rewrite Forall_forall in N'. apply N', nth_In.
    unfold c. rewrite length_step_up, length_candidates, length_take. lia. }
  pose proof (zero_not_nan _ _ laws) as N0. pose proof (one_not_nan _ _ laws) as N1.
  unfold fle.
  destruct (clip01_cases laws _ Hx) as [[_ ->]|[(X0 & X1 & ->)|(_ & _ & ->)]].
  - split; [apply (leb_refl _ _ laws), N0 | apply (zero_le_one _ _ laws)].
  - split; assumption.
  - split; [apply (zero_le_one _ _ laws) | apply (leb_refl _ _ laws), N1].
Qed.

End bh_range.

Lemma bh_in_unit_interval_witness :
  let p := [0x1.999999999999ap-4; 0x1.999999999999ap-5; 0x1.47ae147ae147bp-7]%float in
  fle (of_Z 0) (nth 1 (benjamini_hochberg argsort_stable p) (of_Z 0))
  /\ fle (nth 1 (benjamini_hochberg argsort_stable p) (of_Z 0)) (of_Z 1).
Proof.
  exact (bh_in_unit_interval binary64_order_laws argsort_stable
           [0x1.999999999999ap-4; 0x1.999999999999ap-5; 0x1.47ae147ae147bp-7]%float
           1 eq_refl eq_refl ltac:(simpl; lia)).
Defined.

(** ** C1: the step-up correction, rank by rank *)

(** C1, as the code has it.  In any arithmetic obeying the order laws
    (binary64 and the exact rationals do), for every list of raw p-values
    none of whose candidates [p * n / k] is NaN, and every ranking of it by
    ascending raw p-value: the adjusted p-value of the gene of rank [k] is
    the clipped minimum of the candidates of the ranks [k .. n], a value
    that lies below each of these candidates and is one of them; and the
    adjusted values never decrease as the rank increases.  Ranks are counted
    from 0 here, so that rank [k] has the divisor [k + 1]. *)
Theorem bh_step_up_monotone
  (F : Type) (num : Number F) (argsort : list F -> list nat) (p : list F) :
  let n := length p in
  let candidate k :=
    (nth (nth k (argsort p) 0) p (of_Z 0) * of_Z (Z.of_nat n)
     / of_Z (Z.of_nat (S k)))%num in
  let adjusted k := nth (nth k (argsort p) 0) (benjamini_hochberg argsort p) (of_Z 0) in
  OrderLaws F num ->
  is_argsort p (argsort p) = true ->
  (forall k, k < n -> isnan (candidate k) = false) ->
  forall k, k < n ->
    (exists v, adjusted k = clip01 v
               /\ (forall j, k <= j < n -> (v <=? candidate j)%num = true)
               /\ (exists j, k <= j < n /\ v = candidate j))
    /\ (forall k', k <= k' < n -> (adjusted k <=? adjusted k')%num = true).
Proof.
  intros n candidate adjusted laws H Hc k Hk.
  apply andb_true_iff in H as [Hp _].
  exact (bh_least_candidate laws argsort p Hp Hc k Hk).
Qed.

Lemma bh_step_up_monotone_witness :
  let p := [0.5; 0.125; 0.25; 0.125]%float in
  let order := argsort_stable p in
  let candidate k := (nth (nth k order 0%nat) p 0 * 4 / of_Z (Z.of_nat (S k)))%float in
  let adjusted k := nth (nth k order 0) (benjamini_hochberg argsort_stable p) 0%float in
  is_argsort p order = true
  /\ (forall k, k < 4 -> is_nan (candidate k) = false)
  /\ (exists v, adjusted 1 = clip01 v
                /\ (forall j, 1 <= j < 4 -> (v <=? candidate j)%float = true)
                /\ (exists j, 1 <= j < 4 /\ v = candidate j))
  /\ (forall k', 1 <= k' < 4 -> PrimFloat.leb (adjusted 1) (adjusted k') = true).
Proof.
  assert (Hc : forall k, k < 4 ->
                 is_nan (nth (nth k (argsort_stable [0.5; 0.125; 0.25; 0.125]%float) 0%nat)
                             [0.5; 0.125; 0.25; 0.125]%float 0 * 4
                         / of_Z (Z.of_nat (S k)))%float = false).
  { intros k Hk. do 4 (destruct k as [|k]; [reflexivity|]). lia. }
  split; [reflexivity|]. split; [exact Hc|].
  exact (bh_step_up_monotone float binary64 argsort_stable
           [0.5; 0.125; 0.25; 0.125]%float binary64_order_laws eq_refl Hc
           1 ltac:(simpl; lia)).
Defined.

(** C1 fails on the lists the engine passes when a gene is degenerate: with
    a NaN among the raw p-values every adjusted value is NaN, and NaN is not
    below or equal to NaN, so the adjusted values read in rank order are not
    non-decreasing. *)
Lemma bh_nan_not_monotone :
  let p := [0.5; nan; 0.25]%float in
  let order := argsort_stable p in
  let adjusted k := nth (nth k order 0) (benjamini_hochberg argsort_stable p) 0%float in
  is_argsort p order = true
  /\ ~ (forall k k', k <= k' < length p -> (adjusted k <=? adjusted k')%float = true).
Proof.
  split; [reflexivity|].
  intros H. specialize (H 0 1 ltac:(simpl; lia)). vm_compute in H. discriminate H.
Qed.

(** ** One NaN p-value spoils every adjusted value *)

Section nan_spreads.
Context {F : Type} {num : Number F}.
Hypothesis nan_candidate :
  forall x a b : F, isnan x = true -> isnan (fdiv (fmul x a) b) = true.
Hypothesis nan_not_le : forall x y : F, isnan x = true -> fleb x y = false.
Hypothesis nan_not_lt :
  forall x y : F, isnan x = true -> fltb x y = false /\ fltb y x = false.
Variable argsort : list F -> list nat.

(** [np.argsort] puts NaN last: whatever follows a NaN is a NaN. *)
Lemma nan_sorted_last (l : list F) i j d :
  is_sorted l = true -> i <= j < length l ->
  isnan (nth i l d) = true -> isnan (nth j l d) = true.
Proof.
  revert i j. induction l as [|x l IH]; intros i j Hs H Hn; [simpl in H; lia|].
  assert (Hs' : is_sorted l = true).
  { simpl in Hs. destruct l; [reflexivity|].
    apply andb_true_iff in Hs. apply Hs. }
  destruct i as [|i].
  - destruct j as [|j]; [exact Hn|].
    destruct l as [|y l]; [simpl in H; lia|].
    apply (IH 0 j Hs'); [simpl in *; lia|].
    simpl in Hs. apply andb_true_iff in Hs as [Hxy _].
    unfold sort_le in Hxy. simpl in Hn. rewrite (nan_not_le x y Hn) in Hxy.
    exact Hxy.
  - destruct j as [|j]; [lia|]. apply (IH i j Hs'); [simpl in H; lia | exact Hn].
Qed.

(** The running minimum starts from the top rank and keeps a NaN. *)
Lemma step_up_nan (c : list F) d :
  c <> [] -> isnan (last c d) = true ->
  Forall (fun x => isnan x = true) (step_up c).
Proof.
  induction c as [|x c IH]; intros Hne Hl; [congruence|].
  destruct c as [|y c].
  - simpl in *. constructor; [exact Hl | constructor].
  - specialize (IH ltac:(discriminate) Hl).
    change (step_up (x :: y :: c)) with
      (match step_up (y :: c) with
       | [] => [x]
       | (z :: _) as r => minimum z x :: r
       end).
    pose proof (length_step_up (y :: c)) as L.
    destruct (step_up (y :: c)) as [|z r]; [discriminate L|].
    inversion IH as [|? ? Hz Hr]; subst.
    constructor; [|exact IH].
    unfold minimum. rewrite Hz, orb_true_r. exact Hz.
Qed.

Lemma clip_nan (x lo hi : F) : isnan x = true -> clip x lo hi = x.
Proof.
  intros H. unfold clip. rewrite (proj1 (nan_not_lt x lo H)). cbv zeta.
  rewrite (proj2 (nan_not_lt x hi H)). reflexivity.
Qed.

Lemma bh_nan_spreads_any (p : list F) (i : nat) :
  is_argsort p (argsort p) = true ->
  existsb isnan p = true ->
  i < length p ->
  isnan (nth i (benjamini_hochberg argsort p) (of_Z 0)) = true.
Proof.
  intros H Hex Hi. apply andb_true_iff in H as [Hp Hs].
  destruct (index_permutation_facts _ _ Hp) as (Hl & _ & Hin).
  destruct (index_permutation_position _ _ i Hp Hi) as (k & Hk & <-).
  apply existsb_exists in Hex as (x & Hx & Nx).
  destruct (In_nth _ _ (of_Z 0) Hx) as (ix & Hix & Ex).
  destruct (index_permutation_position _ _ ix Hp Hix) as (kx & Hkx & Ekx).
  set (sp := take p (argsort p)) in *.
  assert (Lsp : length sp = length p) by (unfold sp; rewrite length_take; exact Hl).
  assert (Ntop : isnan (nth (length p - 1) sp (of_Z 0)) = true).
  { apply (nan_sorted_last sp kx); [exact Hs | lia|].
    unfold sp. rewrite nth_take by lia. rewrite Ekx, Ex. exact Nx. }
  set (c := candidates (length p) sp).
  assert (Lc : length c = length p)
    by (unfold c; rewrite length_candidates; exact Lsp).
  assert (Hne : c <> []) by (intros E; rewrite E in Lc; simpl in Lc; lia).
  assert (Nc : isnan (last c (of_Z 0)) = true).
  { destruct (exists_last Hne) as (c' & y & Ey).
    rewrite Ey, last_last.
    assert (Ly : y = nth (length p - 1) c (of_Z 0)).
    { rewrite Ey. rewrite Ey, length_app in Lc. simpl in Lc.
      rewrite app_nth2 by lia.
      replace (length p - 1 - length c') with 0 by lia. reflexivity. }
    rewrite Ly. unfold c. rewrite nth_candidates_any by lia.
    apply nan_candidate, Ntop. }
  pose proof (step_up_nan c (of_Z 0) Hne Nc) as A.
  rewrite (bh_at_rank_any argsort p k Hp Hk). fold sp c.
  assert (Nk : isnan (nth k (step_up c) (of_Z 0)) = true).
  { rewrite Forall_forall in A. apply A, nth_In. rewrite length_step_up. lia. }
  unfold clip01. rewrite clip_nan by exact Nk. exact Nk.
Qed.

End nan_spreads.

Lemma float_nan_candidate (x a b : float) :
  PrimFloat.is_nan x = true -> PrimFloat.is_nan (x * a / b)%float = true.
Proof.
  intros H. rewrite is_nan_spec in *.
  rewrite FloatAxioms.div_spec, FloatAxioms.mul_spec.
  destruct (Prim2SF x); try discriminate.
  reflexivity.
Qed.

Lemma float_nan_not_le (x y : float) :
  PrimFloat.is_nan x = true -> (x <=? y)%float = false.
Proof.
  intros H. rewrite is_nan_spec in H. rewrite FloatAxioms.leb_spec.
  destruct (Prim2SF x); try discriminate. reflexivity.
Qed.

Lemma float_nan_not_lt (x y : float) :
  PrimFloat.is_nan x = true -> (x <? y)%float = false /\ (y <? x)%float = false.
Proof.
  intros H. rewrite is_nan_spec in H. rewrite !FloatAxioms.ltb_spec.
  destruct (Prim2SF x); try discriminate.
  split; [reflexivity|].
  destruct (Prim2SF y) as [s|s| |s m e]; try destruct s; reflexivity.
Qed.

(** X5.  In binary64, one NaN among the raw p-values makes every adjusted
    value NaN: NaN is ranked last and the running minimum starts there. *)
Theorem bh_nan_spreads (argsort : list float -> list nat) (p : list float) (i : nat) :
  is_argsort p (argsort p) = true ->
  existsb PrimFloat.is_nan p = true ->
  i < length p ->
  PrimFloat.is_nan (nth i (benjamini_hochberg argsort p) (of_Z 0)) = true.
Proof.
  exact (bh_nan_spreads_any float_nan_candidate float_nan_not_le float_nan_not_lt
           argsort p i).
Qed.

Lemma bh_nan_spreads_witness :
  PrimFloat.is_nan
    (nth 0 (benjamini_hochberg argsort_stable
              [0x1.47ae147ae147bp-7; PrimFloat.nan; 0x1.999999999999ap-5]%float)
         (of_Z 0)) = true.
Proof.
  exact (bh_nan_spreads argsort_stable
           [0x1.47ae147ae147bp-7; PrimFloat.nan; 0x1.999999999999ap-5]%float 0
           eq_refl eq_refl ltac:(simpl; lia)).
Defined.

(** ** Column selection, read back *)

Lemma index_of_None s cols : index_of s cols = None <-> ~ In s cols.
Proof.
  induction cols as [|c cols IH]; simpl; [tauto|].
  destruct (String.eqb_spec c s) as [E|Hne].
  - split; [discriminate | intros H; exfalso; apply H; left; exact E].
  - destruct (index_of s cols) as [k|].
    + split; [discriminate|]. intros H. exfalso.
      assert (X : ~ In s cols) by tauto. apply IH in X. discriminate.
    + split; [|reflexivity].
      intros _ [X|X]; [contradiction | exact (proj1 IH eq_refl X)].
Qed.

Lemma index_of_Some s cols i :
  index_of s cols = Some i -> i < length cols /\ nth i cols EmptyString = s.
Proof.
  revert i. induction cols as [|c cols IH]; intros i H; simpl in H; [discriminate|].
  destruct (String.eqb_spec c s) as [E|Hne].
  - inversion H; subst. simpl. split; [lia | reflexivity].
  - destruct (index_of s cols) as [k|]; [|discriminate].
    inversion H; subst. destruct (IH k eq_refl). simpl. split; [lia | assumption].
Qed.

Lemma locate_raise_inv cols names e :
  locate cols names = Raise e ->
  missing_from cols names <> []
  /\ e = KeyErrorLabels names (unique (missing_from cols names)).
Proof.
  unfold locate. destruct (is_nil (missing_from cols names)) eqn:M; intros H;
    inversion H. split; [apply is_nil_false, M | reflexivity].
Qed.

Lemma locate_ok_inv cols names idx :
  locate cols names = Ok idx ->
  (forall s, In s names -> In s cols) /\ idx = map (position cols) names.
Proof.
  unfold locate. destruct (is_nil (missing_from cols names)) eqn:M; intros H;
    inversion H. split; [|reflexivity].
  apply is_nil_true in M. intros s Hs.
  apply mem_In, (proj1 (missing_from_nil cols names) M s Hs).
Qed.

Section selection.
Context {F : Type} {num : Number F}.

(** The cells selected for the columns [names] are the cells of the columns
    so named. *)
Lemma take_named (counts : CountsFrame F) names idx r :
  locate (data_columns (columns counts)) names = Ok idx ->
  take (cells r) idx = map (cell counts r) names.
Proof.
  intros H. apply locate_ok_inv in H as [Hin ->].
  unfold take. rewrite map_map. apply map_ext_in. intros s Hs.
  unfold cell, position. specialize (Hin s Hs).
  destruct (index_of s (data_columns (columns counts))) eqn:E; [reflexivity|].
  apply index_of_None in E. contradiction.
Qed.

Lemma loc_select_any (rs : list (Row F)) idx r :
  NoDup (map label rs) -> In r rs ->
  loc (map (select_cells idx) rs) (label r) = take (cells r) idx.
Proof.
  unfold loc. induction rs as [|r0 rs IH]; intros Hnd Hin; [contradiction|].
  simpl in Hnd. inversion Hnd as [|? ? Hni Hnd']; subst.
  simpl. destruct Hin as [->|Hin].
  - rewrite String.eqb_refl. reflexivity.
  - destruct (String.eqb_spec (label r0) (label r)) as [E|Hne].
    + exfalso. apply Hni. rewrite E. apply in_map, Hin.
    + apply IH; assumption.
Qed.

End selection.

(** ** The engine: every outcome *)

Section engine_outcomes.
Import differential_expression.
Context {F : Type} {num : Number F}.
Variable sqrt : F -> F.
Variable t_two_sided : F -> F -> F.
Variables np_argsort pd_argsort : list F -> list nat.
Local Open Scope string_scope.

Lemma group_in_all metadata c s :
  In s (samples_of metadata c) -> In s (map sample_id (md_rows metadata)).
Proof.
  intros H. apply In_samples_of in H as (r & Hr & _ & <-). apply in_map, Hr.
Qed.

Lemma present_not_data_column cols s :
  mem s cols = true -> ~ In s (data_columns cols) -> s = "gene_id".
Proof.
  intros Hm Hn. destruct (String.eqb_spec s "gene_id") as [E|Hne]; [exact E|].
  exfalso. apply Hn, In_data_columns. split; [apply mem_In, Hm | exact Hne].
Qed.

Lemma unique_constant (c : string) (l : list string) :
  l <> [] -> (forall x, In x l -> x = c) -> unique l = [c].
Proof.
  induction l as [|x l IH]; intros Hne H; [congruence|].
  assert (Hx : x = c) by (apply H; left; reflexivity). subst x.
  simpl. destruct l as [|y l]; [reflexivity|].
  rewrite IH by (try discriminate; intros x Hx; apply H; right; exact Hx).
  simpl. rewrite String.eqb_refl. reflexivity.
Qed.

(** Selecting names that are all columns of the frame read from the file:
    the selection can only fail on gene_id, which is no column of the
    indexed matrix, and the [KeyError] then lists it alone. *)
Lemma locate_present_raise cols names e :
  (forall s, In s names -> mem s cols = true) ->
  locate (data_columns cols) names = Raise e ->
  e = KeyErrorLabels names ["gene_id"] /\ In "gene_id" names.
Proof.
  intros Hall L. apply locate_raise_inv in L as [Hne ->].
  assert (Hg : forall x, In x (missing_from (data_columns cols) names) ->
                         x = "gene_id").
  { intros x Hx. apply In_missing_from in Hx as [Hx Hm].
    apply (present_not_data_column cols x (Hall x Hx)).
    intros X. apply mem_In in X. congruence. }
  rewrite (unique_constant "gene_id" _ Hne Hg). split; [reflexivity|].
  assert (Hx : exists x, In x (missing_from (data_columns cols) names)).
  { destruct (missing_from (data_columns cols) names) as [|x l]; [congruence|].
    exists x. left. reflexivity. }
  destruct Hx as [x Hx]. rewrite <- (Hg x Hx).
  apply In_missing_from in Hx. apply Hx.
Qed.

(** X6.  On a matrix with unique gene labels the engine ends in one of six
    ways other than success: the four validation errors in the order they
    are checked; the [KeyError] of list indexing when a sample of one group
    is itself called gene_id (it passes the missing-samples check and is
    then no column of the indexed matrix), the error naming the group's
    samples as requested and gene_id as the one absent; and
    [KeyError('p_value')] on a matrix without rows. *)
Theorem engine_errors (counts : CountsFrame F) (metadata : Metadata) (e : exception) :
  NoDup (map label (rows counts)) ->
  main sqrt t_two_sided np_argsort pd_argsort counts metadata = Raise e ->
  (e = ValueError "Counts file must contain a 'gene_id' column."
   /\ mem "gene_id" (columns counts) = false)
  \/ (e = ValueError "Metadata must contain 'sample_id' and 'condition' columns."
      /\ mem "gene_id" (columns counts) = true)
  \/ (e = ValueError "Metadata must describe exactly two conditions."
      /\ length (unique (map condition (md_rows metadata))) <> 2)
  \/ (exists missing,
        e = ValueError (String.append "Samples missing from counts matrix: "
                          (String.concat ", " missing))
        /\ missing <> []
        /\ forall s, In s missing ->
                     In s (map sample_id (md_rows metadata))
                     /\ mem s (columns counts) = false)
  \/ (exists c,
        In c (unique (map condition (md_rows metadata)))
        /\ e = KeyErrorLabels (samples_of metadata c) ["gene_id"]
        /\ In "gene_id" (samples_of metadata c))
  \/ (e = KeyError "p_value" /\ rows counts = []).
Proof.
  unfold main. intros _ H.
  destruct (mem "gene_id" (columns counts)) eqn:Hg; simpl negb in H; cbv iota in H;
    [|inversion H; auto].
  destruct (mem "sample_id" (md_columns metadata)
            && mem "condition" (md_columns metadata)); simpl negb in H;
    cbv iota in H; [|inversion H; auto].
  destruct (unique (map condition (md_rows metadata)))
    as [|a [|b [|c l]]] eqn:Hc;
    try (inversion H; right; right; left; split; [reflexivity | simpl; lia]).
  cbv zeta in H.
  destruct (negb (is_nil (missing_from (columns counts) (samples_of metadata a)))
            || negb (is_nil (missing_from (columns counts) (samples_of metadata b))))
    eqn:Hmiss.
  { inversion H. right; right; right; left.
    exists (missing_from (columns counts) (samples_of metadata a)
            ++ missing_from (columns counts) (samples_of metadata b))%list.
    split; [reflexivity|]. split.
    - rewrite any_missing in Hmiss. apply negb_true_iff, is_nil_false in Hmiss.
      exact Hmiss.
    - intros s Hs. apply in_app_iff in Hs.
      destruct Hs as [Hs|Hs]; apply In_missing_from in Hs as [Hs Hm];
        (split; [eapply group_in_all; exact Hs | exact Hm]). }
  apply orb_false_iff in Hmiss as [Ma Mb].
  apply negb_false_iff, is_nil_true in Ma.
  apply negb_false_iff, is_nil_true in Mb.
  pose proof (proj1 (missing_from_nil _ _) Ma) as Ma'.
  pose proof (proj1 (missing_from_nil _ _) Mb) as Mb'.
  assert (K : forall c e',
            In c [a; b] ->
            (forall s, In s (samples_of metadata c) -> mem s (columns counts) = true) ->
            getitem counts (samples_of metadata c) = Raise e' ->
            exists c, In c [a; b]
                      /\ e' = KeyErrorLabels (samples_of metadata c) ["gene_id"]
                      /\ In "gene_id" (samples_of metadata c)).
  { intros c e' Hin Hall E. unfold getitem in E.
    destruct (locate (data_columns (columns counts)) (samples_of metadata c))
      as [idx|e0] eqn:L; simpl in E; [discriminate|].
    inversion E; subst e0.
    destruct (locate_present_raise _ _ _ Hall L) as [-> Hgene].
    exists c. auto. }
  destruct (getitem counts (samples_of metadata a)) as [ga|ea] eqn:Ea; simpl in H.
  2:{ inversion H; subst ea. right; right; right; right; left.
      apply (K a e); simpl; auto. }
  destruct (getitem counts (samples_of metadata b)) as [gb|eb] eqn:Eb; simpl in H.
  2:{ inversion H; subst eb. right; right; right; right; left.
      apply (K b e); simpl; auto. }
  destruct (is_nil (map (per_gene sqrt t_two_sided gb) ga)) eqn:Hnil;
    [|discriminate].
  inversion H. right; right; right; right; right. split; [reflexivity|].
  apply is_nil_true in Hnil. apply map_eq_nil in Hnil. subst ga.
  apply getitem_inv in Ea as (ia & _ & Ea). symmetry in Ea.
  apply map_eq_nil in Ea. exact Ea.
Qed.

(** X7.  On a matrix whose gene labels are unique (the case [loc] is
    modelled for), the engine succeeds exactly when the matrix has a gene_id
    column, the metadata has both of its columns and two distinct
    conditions, every sample is a column of the matrix other than gene_id,
    and the matrix has at least one gene. *)
Theorem engine_succeeds_iff (counts : CountsFrame F) (metadata : Metadata) :
  NoDup (map label (rows counts)) ->
  (exists tbl, main sqrt t_two_sided np_argsort pd_argsort counts metadata = Ok tbl)
  <-> (mem "gene_id" (columns counts) = true
       /\ mem "sample_id" (md_columns metadata) = true
       /\ mem "condition" (md_columns metadata) = true
       /\ length (unique (map condition (md_rows metadata))) = 2
       /\ (forall s, In s (map sample_id (md_rows metadata)) ->
                     In s (columns counts) /\ s <> "gene_id")
       /\ rows counts <> []).
Proof.
  intros _. split.
  - intros (tbl & H).
    apply main_ok_inv in H
      as (a & b & ia & ib & Hg & Hm & Hmiss & Hrows & Hc & La & Lb & _).
    apply andb_true_iff in Hm as [Hs Hcnd].
    repeat (split; [solve [auto]|]).
    split; [rewrite Hc; reflexivity|]. split; [|exact Hrows].
    intros s Hs'. apply (two_groups_cover metadata a b s Hc) in Hs'.
    apply locate_ok_inv in La as [Ha _]. apply locate_ok_inv in Lb as [Hb _].
    apply In_data_columns. destruct Hs' as [X|X]; auto.
  - intros (Hg & Hs & Hcnd & Hc & Hall & Hrows).
    destruct (unique (map condition (md_rows metadata)))
      as [|a [|b [|c l]]] eqn:Ec; try discriminate.
    rewrite (main_two_conditions sqrt t_two_sided np_argsort pd_argsort
               counts metadata a b Hg ltac:(rewrite Hs, Hcnd; reflexivity) Ec).
    cbv zeta.
    assert (Hin : forall c s, In s (samples_of metadata c) ->
                              mem s (columns counts) = true /\ s <> "gene_id").
    { intros c s X. apply group_in_all, Hall in X as [X1 X2].
      split; [apply mem_In, X1 | exact X2]. }
    assert (Ma : missing_from (columns counts) (samples_of metadata a) = [])
      by (apply missing_from_nil; intros s X; apply (Hin a s X)).
    assert (Mb : missing_from (columns counts) (samples_of metadata b) = [])
      by (apply missing_from_nil; intros s X; apply (Hin b s X)).
    rewrite Ma, Mb. simpl orb. cbv iota.
    destruct (getitem_ok F num counts (samples_of metadata a) (Hin a))
      as (ia & _ & ->).
    destruct (getitem_ok F num counts (samples_of metadata b) (Hin b))
      as (ib & _ & ->).
    simpl bind.
    destruct (rows counts) as [|r rs]; [congruence|].
    simpl is_nil. eauto.
Qed.

End engine_outcomes.

Lemma engine_errors_witness :
  let counts : CountsFrame Q :=
    {| columns := ["gene_id"; "S1"; "S2"]%string;
       rows := [{| label := "g1"%string; cells := [1; 2]%Q |}] |} in
  let metadata :=
    {| md_columns := ["sample_id"; "condition"]%string;
       md_rows := [{| sample_id := "S1"; condition := "A" |};
                   {| sample_id := "gene_id"; condition := "B" |};
                   {| sample_id := "S2"; condition := "B" |}] |} in
  differential_expression.main (fun x => x) (fun _ t => t)
    argsort_stable argsort_stable counts metadata
  = Raise (KeyErrorLabels ["gene_id"; "S2"] ["gene_id"])%string
  /\ exists c, In "gene_id"%string (samples_of metadata c).
Proof.
  intros counts metadata. split; [reflexivity|].
  assert (Hnd : NoDup (map label (rows counts))).
  { repeat constructor; simpl; intuition discriminate. }
  destruct (engine_errors (fun x => x) (fun _ t => t) argsort_stable argsort_stable
              counts metadata (KeyErrorLabels ["gene_id"; "S2"] ["gene_id"])%string
              Hnd eq_refl)
    as [[E _]|[[E _]|[[E _]|[(m & E & _)|[(c & _ & _ & H)|[E _]]]]]];
    try discriminate E.
  exists c. exact H.
Defined.

Lemma engine_succeeds_iff_witness :
  let counts : CountsFrame Q :=
    {| columns := ["gene_id"; "S1"; "S2"]%string;
       rows := [{| label := "g1"%string; cells := [1; 2]%Q |};
                {| label := "g2"%string; cells := [3; 4]%Q |}] |} in
  let metadata :=
    {| md_columns := ["sample_id"; "condition"]%string;
       md_rows := [{| sample_id := "S1"; condition := "A" |};
                   {| sample_id := "S2"; condition := "B" |}] |} in
  exists tbl,
    differential_expression.main (fun x => x) (fun _ t => t)
      argsort_stable argsort_stable counts metadata = Ok tbl.
Proof.
  intros counts metadata.
  assert (Hnd : NoDup (map label (rows counts))).
  { repeat constructor; simpl; intuition discriminate. }
  apply (engine_succeeds_iff (fun x => x) (fun _ t => t)
           argsort_stable argsort_stable counts metadata Hnd).
  split; [reflexivity|]. split; [reflexivity|]. split; [reflexivity|].
  split; [reflexivity|]. split; [|discriminate].
  intros s [<-|[<-|[]]]; split; simpl; auto; discriminate.
Defined.

(** ** The engine: what a successful run emits *)

Section engine_table.
Import differential_expression.
Context {F : Type} {num : Number F}.
Variable sqrt : F -> F.
Variable t_two_sided : F -> F -> F.
Variables np_argsort pd_argsort : list F -> list nat.
Local Open Scope num_scope.

Lemma In_sort_values (df : list (ResultRow F)) r :
  In r (sort_values pd_argsort df) -> In r df.
Proof.
  unfold sort_values. intros H. apply in_flat_map in H as (i & _ & H).
  unfold pick in H. destruct (nth_error df i) as [r'|] eqn:E; [|contradiction].
  destruct H as [<-|[]]. eapply nth_error_In, E.
Qed.

Lemma In_add_p_adj (records : list (TestRecord F)) res :
  In res (add_p_adj np_argsort records) ->
  exists i, i < length records
            /\ p_adj res = nth i (benjamini_hochberg np_argsort (map p_value records))
                               (of_Z 0)
            /\ nth_error records i = Some (test res).
Proof.
  unfold add_p_adj. intros H. apply in_map_iff in H as ([t q] & <- & H).
  destruct (In_nth _ _ (t, q) H) as (i & Hi & E).
  rewrite length_combine, length_benjamini_hochberg, length_map, Nat.min_id in Hi.
  rewrite combine_nth in E
    by (rewrite length_benjamini_hochberg, length_map; reflexivity).
  injection E as Et Eq. exists i. simpl. split; [exact Hi|]. split.
  - rewrite <- Eq at 1. apply nth_indep.
    rewrite length_benjamini_hochberg, length_map. exact Hi.
  - rewrite (nth_error_nth' records t Hi), Et. reflexivity.
Qed.

Lemma map_gene_id_records (ia ib : list nat) (rs : list (Row F)) :
  map gene_id (map (per_gene sqrt t_two_sided (map (select_cells ib) rs))
                   (map (select_cells ia) rs))
  = map label rs.
Proof. rewrite !map_map. reflexivity. Qed.

Lemma table_genes_perm (counts : CountsFrame F) (metadata : Metadata)
  (tbl : ResultTable F) :
  main sqrt t_two_sided np_argsort pd_argsort counts metadata = Ok tbl ->
  (forall a, is_index_permutation (pd_argsort a) (length a) = true) ->
  Permutation (map label (rows counts))
              (map (fun r => gene_id (test r)) (table tbl)).
Proof.
  intros H Hpd.
  apply main_ok_inv in H
    as (a & b & ia & ib & _ & _ & _ & _ & _ & _ & _ & ->).
  cbn [table].
  set (records := map _ (map (select_cells ia) (rows counts))).
  rewrite <- (map_gene_id_records ia ib (rows counts)). fold records.
  rewrite <- (map_test_add_p_adj np_argsort records) at 1.
  rewrite map_map. apply Permutation_map, sort_values_perm.
  specialize (Hpd (map (fun r => p_value (test r)) (add_p_adj np_argsort records))).
  rewrite length_map in Hpd. exact Hpd.
Qed.

(** X8.  A successful run emits one row per gene of the matrix, no gene
    dropped and none repeated, whatever order the final sort gives them;
    group A is the condition that appears first in the metadata. *)
Theorem engine_one_row_per_gene (counts : CountsFrame F) (metadata : Metadata)
  (tbl : ResultTable F) :
  main sqrt t_two_sided np_argsort pd_argsort counts metadata = Ok tbl ->
  (forall a, is_index_permutation (pd_argsort a) (length a) = true) ->
  NoDup (map label (rows counts)) ->
  unique (map condition (md_rows metadata)) = [cond_a_name tbl; cond_b_name tbl]
  /\ Permutation (map label (rows counts))
                 (map (fun r => gene_id (test r)) (table tbl)).
Proof.
  intros H Hpd _. split; [|exact (table_genes_perm counts metadata tbl H Hpd)].
  apply main_ok_inv in H
    as (a & b & ia & ib & _ & _ & _ & _ & Hc & _ & _ & ->).
  exact Hc.
Qed.

(** X9.  With unique gene labels, the row emitted for a gene holds the
    means of that gene's own cells in the columns of group A and of group B
    (wherever those columns stand in the matrix), their difference, and the
    Welch p-value of the two. *)
Theorem engine_row_content (counts : CountsFrame F) (metadata : Metadata)
  (tbl : ResultTable F) (r : Row F) :
  main sqrt t_two_sided np_argsort pd_argsort counts metadata = Ok tbl ->
  (forall a, is_index_permutation (pd_argsort a) (length a) = true) ->
  NoDup (map label (rows counts)) ->
  In r (rows counts) ->
  let a_vals := map (cell counts r) (samples_of metadata (cond_a_name tbl)) in
  let b_vals := map (cell counts r) (samples_of metadata (cond_b_name tbl)) in
  exists res,
    In res (table tbl)
    /\ test res = {| gene_id := label r;
                     mean_a := mean a_vals;
                     mean_b := mean b_vals;
                     log2_fc := mean a_vals - mean b_vals;
                     p_value := ttest_ind_pvalue sqrt t_two_sided a_vals b_vals |}.
Proof.
  intros H Hpd Hnd Hr.
  apply main_ok_inv in H
    as (a & b & ia & ib & _ & _ & _ & _ & Hc & La & Lb & ->).
  cbn [table cond_a_name cond_b_name].
  set (a_vals := map (cell counts r) (samples_of metadata a)).
  set (b_vals := map (cell counts r) (samples_of metadata b)).
  set (records := map _ (map (select_cells ia) (rows counts))).
  set (want := {| gene_id := label r; mean_a := mean a_vals; mean_b := mean b_vals;
                  log2_fc := mean a_vals - mean b_vals;
                  p_value := ttest_ind_pvalue sqrt t_two_sided a_vals b_vals |}).
  assert (Hw : In want records).
  { unfold records. rewrite map_map. apply in_map_iff. exists r.
    split; [|exact Hr].
    unfold per_gene. cbn [label cells select_cells].
    rewrite (loc_select_any (rows counts) ib r Hnd Hr).
    rewrite (take_named counts _ ia r La), (take_named counts _ ib r Lb).
    reflexivity. }
  rewrite <- (map_test_add_p_adj np_argsort records) in Hw.
  apply in_map_iff in Hw as (res & E & Hres).
  exists res. split; [|exact E].
  eapply Permutation_in; [apply sort_values_perm | exact Hres].
  specialize (Hpd (map (fun r => p_value (test r)) (add_p_adj np_argsort records))).
  rewrite length_map in Hpd. exact Hpd.
Qed.

End engine_table.

Lemma argsort_stable_permutes_exact (a : list Q) :
  is_index_permutation (argsort_stable a) (length a) = true.
Proof.
  pose proof (argsort_stable_exact a) as H.
  apply andb_true_iff in H. apply H.
Qed.

Lemma engine_one_row_per_gene_witness :
  let counts : CountsFrame Q :=
    {| columns := ["gene_id"; "S1"; "S2"; "S3"; "S4"]%string;
       rows := [{| label := "g1"%string; cells := [1; 2; 5; 7]%Q |};
                {| label := "g2"%string; cells := [3; 4; 3; 5]%Q |}] |} in
  let metadata :=
    {| md_columns := ["sample_id"; "condition"]%string;
       md_rows := [{| sample_id := "S1"; condition := "A" |};
                   {| sample_id := "S3"; condition := "B" |};
                   {| sample_id := "S2"; condition := "A" |};
                   {| sample_id := "S4"; condition := "B" |}] |} in
  exists tbl,
    differential_expression.main (fun x => x) (fun _ t => t)
      argsort_stable argsort_stable counts metadata = Ok tbl
    /\ Permutation (map label (rows counts))
         (map (fun r => differential_expression.gene_id
                          (differential_expression.test r))
              (differential_expression.table tbl)).
Proof.
  intros counts metadata. eexists. split; [vm_compute; reflexivity|].
  assert (Hnd : NoDup (map label (rows counts))).
  { repeat constructor; simpl; intuition discriminate. }
  exact (proj2 (engine_one_row_per_gene (fun x => x) (fun _ t => t)
                  argsort_stable argsort_stable counts metadata _ eq_refl
                  argsort_stable_permutes_exact Hnd)).
Defined.

Lemma engine_row_content_witness :
  let counts : CountsFrame Q :=
    {| columns := ["S3"; "gene_id"; "S1"; "S2"; "S4"]%string;
       rows := [{| label := "g1"%string; cells := [5; 1; 2; 7]%Q |};
                {| label := "g2"%string; cells := [3; 3; 4; 5]%Q |}] |} in
  let metadata :=
    {| md_columns := ["sample_id"; "condition"]%string;
       md_rows := [{| sample_id := "S1"; condition := "A" |};
                   {| sample_id := "S3"; condition := "B" |};
                   {| sample_id := "S2"; condition := "A" |};
                   {| sample_id := "S4"; condition := "B" |}] |} in
  exists tbl res,
    differential_expression.main (fun x => x) (fun _ t => t)
      argsort_stable argsort_stable counts metadata = Ok tbl
    /\ In res (differential_expression.table tbl)
    /\ differential_expression.gene_id (differential_expression.test res) = "g1"%string
    /\ differential_expression.mean_a (differential_expression.test res)
       = mean [1; 2]%Q
    /\ differential_expression.mean_b (differential_expression.test res)
       = mean [5; 7]%Q.
Proof.
  intros counts metadata. eexists.
  assert (Hnd : NoDup (map label (rows counts))).
  { repeat constructor; simpl; intuition discriminate. }
  destruct (engine_row_content (fun x => x) (fun _ t => t)
              argsort_stable argsort_stable counts metadata _
              {| label := "g1"%string; cells := [5; 1; 2; 7]%Q |}
              eq_refl argsort_stable_permutes_exact Hnd (or_introl eq_refl))
    as (res & Hin & E).
  exists res. split; [reflexivity|]. split; [exact Hin|].
  rewrite E. repeat split.
Defined.

Lemma nan_p_value_spoils_table
  (sqrt : float -> float) (t_two_sided : float -> float -> float)
  (np_argsort pd_argsort : list float -> list nat)
  (counts : CountsFrame float) (metadata : Metadata)
  (tbl : differential_expression.ResultTable float) :
  differential_expression.main sqrt t_two_sided np_argsort pd_argsort counts metadata
  = Ok tbl ->
  (forall a, is_argsort a (np_argsort a) = true) ->
  (exists r, In r (differential_expression.table tbl)
             /\ PrimFloat.is_nan (differential_expression.p_value
                                    (differential_expression.test r)) = true) ->
  forall r, In r (differential_expression.table tbl) ->
            PrimFloat.is_nan (differential_expression.p_adj r) = true.
Proof.
  intros H Hnp (r0 & Hr0 & N0) r Hr.
  apply main_ok_inv in H
    as (a & b & ia & ib & _ & _ & _ & _ & _ & _ & _ & ->).
  cbn [differential_expression.table] in *.
  apply In_sort_values in Hr0, Hr.
  set (records := map _ (map (select_cells ia) (rows counts))) in *.
  apply In_add_p_adj in Hr0 as (i0 & Hi0 & _ & E0).
  apply In_add_p_adj in Hr as (i & Hi & -> & _).
  apply (@bh_nan_spreads_any float binary64 float_nan_candidate float_nan_not_le
           float_nan_not_lt).
  - apply Hnp.
  - apply existsb_exists.
    exists (differential_expression.p_value (differential_expression.test r0)).
    split; [|exact N0]. apply in_map. eapply nth_error_In, E0.
  - rewrite length_map. exact Hi.
Qed.

(** X10.  In binary64, a NaN raw p-value in the emitted table (a gene whose
    Welch statistic is 0/0) leaves no usable adjusted value: every [p_adj]
    of the table is NaN. *)
Theorem engine_nan_spoils_p_adj
  (sqrt : float -> float) (t_two_sided : float -> float -> float)
  (np_argsort pd_argsort : list float -> list nat)
  (counts : CountsFrame float) (metadata : Metadata)
  (tbl : differential_expression.ResultTable float) :
  differential_expression.main sqrt t_two_sided np_argsort pd_argsort counts metadata
  = Ok tbl ->
  (forall a, is_argsort a (np_argsort a) = true) ->
  NoDup (map label (rows counts)) ->
  (exists r, In r (differential_expression.table tbl)
             /\ PrimFloat.is_nan (differential_expression.p_value
                                    (differential_expression.test r)) = true) ->
  forall r, In r (differential_expression.table tbl) ->
            PrimFloat.is_nan (differential_expression.p_adj r) = true.
Proof.
  intros H Hnp _ Hex.
  exact (nan_p_value_spoils_table sqrt t_two_sided np_argsort pd_argsort
           counts metadata tbl H Hnp Hex).
Qed.

Lemma engine_nan_spoils_p_adj_witness :
  let counts : CountsFrame float :=
    {| columns := ["gene_id"; "S1"; "S2"; "S3"; "S4"]%string;
       rows := [{| label := "X"%string; cells := [1; 1; 1; 1]%float |};
                {| label := "Y"%string; cells := [1; 2; 5; 7]%float |}] |} in
  let metadata :=
    {| md_columns := ["sample_id"; "condition"]%string;
       md_rows := [{| sample_id := "S1"; condition := "A" |};
                   {| sample_id := "S2"; condition := "A" |};
                   {| sample_id := "S3"; condition := "B" |};
                   {| sample_id := "S4"; condition := "B" |}] |} in
  exists tbl,
    differential_expression.main PrimFloat.sqrt (fun _ t => t)
      argsort_stable argsort_stable counts metadata = Ok tbl
    /\ forall r, In r (differential_expression.table tbl) ->
                 PrimFloat.is_nan (differential_expression.p_adj r) = true.
Proof.
  intros counts metadata. eexists. split; [vm_compute; reflexivity|].
  apply (engine_nan_spoils_p_adj PrimFloat.sqrt (fun _ t => t)
           argsort_stable argsort_stable counts metadata).
  - vm_compute. reflexivity.
  - exact argsort_stable_binary64.
  - repeat constructor; simpl; intuition discriminate.
  - eexists. split; [right; left; reflexivity | vm_compute; reflexivity].
Defined.

(** ** The normalizer: every outcome *)

Section normalizer_outcomes.
Import preprocess_counts.
Context {C F : Type} {num : Number F}.
Variable as_float : C -> F.
Variable column_sum : list C -> F.
Variable log2 : F -> F.
Local Open Scope string_scope.

Lemma normalizer_ok_inv (counts : CountsFrame C) metadata annotations out :
  main as_float column_sum log2 counts metadata annotations = Ok out ->
  mem "gene_id" (columns counts) = true
  /\ mem "sample_id" (md_columns metadata) && mem "condition" (md_columns metadata) = true
  /\ missing_from (columns (annotated annotations counts))
                  (map sample_id (md_rows metadata)) = []
  /\ exists idx,
       locate (data_columns (columns (annotated annotations counts)))
              (map sample_id (md_rows metadata)) = Ok idx
       /\ out = {| columns := "gene_id" :: map sample_id (md_rows metadata);
                   rows := log2_cpm as_float column_sum log2
                             (length (map sample_id (md_rows metadata)))
                             (map (fun r => {| label := label r;
                                               cells := pick_cells idx (cells r) |})
                                  (rows (annotated annotations counts))) |}.
Proof.
  unfold main, select. fold (annotated annotations counts). intros H.
  destruct (mem "gene_id" (columns counts)); [|discriminate].
  destruct (mem "sample_id" (md_columns metadata)
            && mem "condition" (md_columns metadata)); [|discriminate].
  simpl negb in H. cbv iota zeta in H.
  destruct (is_nil (missing_from (columns (annotated annotations counts))
                                 (map sample_id (md_rows metadata)))) eqn:M;
    simpl negb in H; cbv iota in H; [|discriminate].
  apply is_nil_true in M.
  destruct (locate (data_columns (columns (annotated annotations counts)))
                   (map sample_id (md_rows metadata))) as [idx|e] eqn:L;
    simpl in H; [|discriminate].
  inversion H. repeat (split; [solve [auto]|]). exists idx. auto.
Qed.

Lemma normalizer_runs (counts : CountsFrame C) metadata annotations :
  mem "gene_id" (columns counts) = true ->
  mem "sample_id" (md_columns metadata) && mem "condition" (md_columns metadata) = true ->
  (forall s, In s (map sample_id (md_rows metadata)) ->
             mem s (columns (annotated annotations counts)) = true
             /\ s <> "gene_id") ->
  exists out, main as_float column_sum log2 counts metadata annotations = Ok out.
Proof.
  intros Hg Hm Hin.
  unfold main, select. fold (annotated annotations counts).
  rewrite Hg, Hm. simpl negb. cbv iota zeta.
  assert (M : missing_from (columns (annotated annotations counts))
                           (map sample_id (md_rows metadata)) = [])
    by (apply missing_from_nil; intros s X; apply (Hin s X)).
  rewrite M. simpl negb. cbv iota.
  destruct (locate_ok (data_columns (columns (annotated annotations counts)))
                      (map sample_id (md_rows metadata))) as [idx ->].
  - intros s Hs. apply In_data_columns. destruct (Hin s Hs) as [X1 X2].
    split; [apply mem_In, X1 | exact X2].
  - simpl bind. eauto.
Qed.

(** X11.  The normalizer ends in one of four ways other than success: the
    two schema errors in the order they are checked, the missing-samples
    error (against the matrix as relabelled), and the [KeyError] of list
    indexing when a sample is itself called gene_id, which names all the
    samples as requested and gene_id as the one absent.  It never refuses a
    design for its number of conditions, nor a matrix for having no row. *)
Theorem normalizer_errors (counts : CountsFrame C) (metadata : Metadata)
  (annotations : option Annotations) (e : exception) :
  main as_float column_sum log2 counts metadata annotations = Raise e ->
  (e = ValueError "Counts file must contain a 'gene_id' column."
   /\ mem "gene_id" (columns counts) = false)
  \/ (e = ValueError "Metadata must contain 'sample_id' and 'condition' columns."
      /\ mem "gene_id" (columns counts) = true)
  \/ (exists missing,
        e = ValueError (String.append "Samples missing from counts matrix: "
                          (String.concat ", " missing))
        /\ missing <> []
        /\ forall s, In s missing ->
                     In s (map sample_id (md_rows metadata))
                     /\ mem s (columns (annotated annotations counts)) = false)
  \/ (e = KeyErrorLabels (map sample_id (md_rows metadata)) ["gene_id"]
      /\ In "gene_id" (map sample_id (md_rows metadata))).
Proof.
  unfold main, select. fold (annotated annotations counts). intros H.
  destruct (mem "gene_id" (columns counts)) eqn:Hg; simpl negb in H; cbv iota in H;
    [|inversion H; auto].
  destruct (mem "sample_id" (md_columns metadata)
            && mem "condition" (md_columns metadata)); simpl negb in H;
    cbv iota zeta in H; [|inversion H; auto].
  destruct (is_nil (missing_from (columns (annotated annotations counts))
                                 (map sample_id (md_rows metadata)))) eqn:M;
    simpl negb in H; cbv iota in H.
  - apply is_nil_true in M. pose proof (proj1 (missing_from_nil _ _) M) as M'.
    destruct (locate (data_columns (columns (annotated annotations counts)))
                     (map sample_id (md_rows metadata))) as [idx|e0] eqn:L;
      simpl in H; [discriminate|].
    inversion H; subst e0.
    right; right; right. exact (locate_present_raise _ _ _ M' L).
  - inversion H. right; right; left.
    exists (missing_from (columns (annotated annotations counts))
                         (map sample_id (md_rows metadata))).
    split; [reflexivity|]. split; [apply is_nil_false, M|].
    intros s Hs. apply In_missing_from, Hs.
Qed.

(** X12.  The normalizer succeeds exactly when the matrix has a gene_id
    column, the metadata has both of its columns, and every sample is a
    column, other than gene_id, of the matrix as relabelled. *)
Theorem normalizer_succeeds_iff (counts : CountsFrame C) (metadata : Metadata)
  (annotations : option Annotations) :
  NoDup (map sample_id (md_rows metadata)) ->
  (exists out, main as_float column_sum log2 counts metadata annotations = Ok out)
  <-> (mem "gene_id" (columns counts) = true
       /\ mem "sample_id" (md_columns metadata) = true
       /\ mem "condition" (md_columns metadata) = true
       /\ forall s, In s (map sample_id (md_rows metadata)) ->
                    In s (columns (annotated annotations counts))
                    /\ s <> "gene_id").
Proof.
  intros _. split.
  - intros (out & H).
    apply normalizer_ok_inv in H as (Hg & Hm & _ & idx & L & _).
    apply andb_true_iff in Hm as [Hs Hc].
    repeat (split; [solve [auto]|]).
    intros s Hs'. apply locate_ok_inv in L as [Hin _].
    apply In_data_columns, Hin, Hs'.
  - intros (Hg & Hs & Hc & Hall).
    apply normalizer_runs; [exact Hg | rewrite Hs, Hc; reflexivity|].
    intros s X. apply Hall in X as [X1 X2].
    split; [apply mem_In, X1 | exact X2].
Qed.

End normalizer_outcomes.

Lemma normalizer_errors_witness :
  let counts : CountsFrame Q :=
    {| columns := ["gene_id"; "S1"]%string;
       rows := [{| label := "g1"%string; cells := [1]%Q |}] |} in
  let metadata :=
    {| md_columns := ["sample_id"; "condition"]%string;
       md_rows := [{| sample_id := "S1"; condition := "A" |};
                   {| sample_id := "S2"; condition := "B" |};
                   {| sample_id := "S3"; condition := "C" |}] |} in
  exists missing,
    preprocess_counts.main (fun x => x) sum (fun x => x) counts metadata None
    = Raise (ValueError (String.append "Samples missing from counts matrix: "
                           (String.concat ", " missing)))
    /\ missing <> [].
Proof.
  intros counts metadata.
  destruct (normalizer_errors (fun x => x) sum (fun x => x) counts metadata None
              (ValueError "Samples missing from counts matrix: S2, S3") eq_refl)
    as [[E _]|[[E _]|[(m & E & Hm & _)|[E _]]]];
    try discriminate E.
  exists m. split; [rewrite <- E; reflexivity | exact Hm].
Defined.

Lemma normalizer_succeeds_iff_witness :
  let counts : CountsFrame Q :=
    {| columns := ["gene_id"; "S1"; "S2"]%string; rows := [] |} in
  let metadata :=
    {| md_columns := ["sample_id"; "condition"]%string;
       md_rows := [{| sample_id := "S2"; condition := "A" |};
                   {| sample_id := "S1"; condition := "A" |}] |} in
  exists out,
    preprocess_counts.main (fun x => x) sum (fun x => x) counts metadata None
    = Ok out.
Proof.
  intros counts metadata.
  assert (Hnd : NoDup (map sample_id (md_rows metadata))).
  { repeat constructor; simpl; intuition discriminate. }
  apply (normalizer_succeeds_iff (fun x => x) sum (fun x => x) counts metadata
           None Hnd).
  split; [reflexivity|]. split; [reflexivity|]. split; [reflexivity|].
  intros s [<-|[<-|[]]]; split; simpl; auto; discriminate.
Defined.

(** ** The normalizer: what a successful run emits *)

Section normalizer_output.
Import preprocess_counts.
Context {C F : Type} {num : Number F}.
Variable as_float : C -> F.
Variable column_sum : list C -> F.
Variable log2 : F -> F.
Local Open Scope num_scope.

Lemma map_seq_nth (A B : Type) (g : A -> B) (l : list A) (d : A) :
  map (fun j => g (nth j l d)) (seq 0 (length l)) = map g l.
Proof.
  rewrite <- (map_map (fun j => nth j l d) g). f_equal.
  apply nth_ext with (d := d) (d' := d).
  - rewrite length_map, length_seq. reflexivity.
  - intros k Hk. rewrite length_map, length_seq in Hk.
    rewrite (nth_indep _ d (nth 0 l d)) by (rewrite length_map, length_seq; exact Hk).
    rewrite (map_nth (fun j => nth j l d) (seq 0 (length l)) 0 k).
    rewrite seq_nth by exact Hk. reflexivity.
Qed.

Lemma flat_map_ext_in (A B : Type) (f g : A -> list B) (l : list A) :
  (forall a, In a l -> f a = g a) -> flat_map f l = flat_map g l.
Proof.
  induction l as [|a l IH]; intros H; [reflexivity|].
  simpl. rewrite (H a (or_introl eq_refl)), IH; [reflexivity|].
  intros b Hb. apply H. right. exact Hb.
Qed.

Lemma nth_error_pick_cells (idx : list nat) (cs : list C) j :
  (forall i, In i idx -> i < length cs) ->
  nth_error (pick_cells idx cs) j
  = match nth_error idx j with
    | Some i => nth_error cs i
    | None => None
    end.
Proof.
  revert j. induction idx as [|i idx IH]; intros j H; [destruct j; reflexivity|].
  assert (Hi : i < length cs) by (apply H; left; reflexivity).
  unfold pick_cells. cbn [flat_map].
  destruct (nth_error cs i) as [c|] eqn:E;
    [|apply nth_error_None in E; lia].
  destruct j as [|j]; simpl; [symmetry; exact E|].
  apply IH. intros k Hk. apply H. right. exact Hk.
Qed.

Section aligned.
Variable m : CountsFrame C.
Variable names : list string.
Variable idx : list nat.
Hypothesis located : locate (data_columns (columns m)) names = Ok idx.
Hypothesis rectangular : well_formed m.

Lemma position_bound s :
  In s names -> position (data_columns (columns m)) s
                < length (data_columns (columns m))
                /\ index_of s (data_columns (columns m))
                   = Some (position (data_columns (columns m)) s).
Proof.
  intros Hs. destruct (locate_ok_inv _ _ _ located) as [Hin _].
  destruct (index_of_In s _ (Hin s Hs)) as [k E].
  unfold position. rewrite E. split; [|reflexivity].
  apply (index_of_Some _ _ _ E).
Qed.

Lemma idx_bound r i : In r (rows m) -> In i idx -> i < length (cells r).
Proof.
  intros Hr Hi. destruct (locate_ok_inv _ _ _ located) as [_ E].
  rewrite E in Hi. apply in_map_iff in Hi as (s & <- & Hs).
  rewrite (rectangular r Hr). apply position_bound, Hs.
Qed.

Lemma picked_cell r j :
  In r (rows m) -> j < length names ->
  nth_error (pick_cells idx (cells r)) j
  = raw_cell m r (nth j names EmptyString).
Proof.
  intros Hr Hj.
  rewrite nth_error_pick_cells by (intros i Hi; apply (idx_bound r i Hr Hi)).
  destruct (locate_ok_inv _ _ _ located) as [_ E]. rewrite E.
  rewrite nth_error_map, (nth_error_nth' names EmptyString Hj). simpl.
  unfold raw_cell.
  rewrite (proj2 (position_bound (nth j names EmptyString) (nth_In _ _ Hj))).
  reflexivity.
Qed.

(** The totals of the selected columns are those of the columns so named. *)
Lemma column_totals_named :
  column_totals column_sum (length names)
    (map (fun r => {| label := label r; cells := pick_cells idx (cells r) |})
         (rows m))
  = map (fun s => column_sum (raw_column m s)) names.
Proof.
  unfold column_totals.
  rewrite <- (map_seq_nth _ _ (fun s => column_sum (raw_column m s)) names
                          EmptyString).
  apply map_ext_in. intros j Hj. apply in_seq in Hj.
  assert (Hlt : j < length names) by lia.
  pose proof (proj2 (position_bound (nth j names EmptyString)
                       (nth_In names EmptyString Hlt))) as Hp.
  f_equal. unfold raw_column. rewrite Hp.
  unfold column. rewrite flat_map_concat_map, map_map, <- flat_map_concat_map.
  apply flat_map_ext_in. intros r Hr. cbn [cells].
  rewrite (picked_cell r j Hr Hlt). unfold raw_cell. rewrite Hp.
  reflexivity.
Qed.

Lemma picked_cells r :
  In r (rows m) ->
  Forall2 (fun s x => raw_cell m r s = Some x) names (pick_cells idx (cells r)).
Proof.
  intros Hr. destruct (locate_ok_inv _ _ _ located) as [_ E].
  assert (B : forall s, In s names -> In s names) by auto.
  revert B. rewrite E. generalize names at 1 3 4 as l.
  induction l as [|s l IH]; intros B; [constructor|].
  unfold pick_cells. cbn [map flat_map].
  destruct (position_bound s (B s (or_introl eq_refl))) as [Hlt Hio].
  destruct (nth_error (cells r) (position (data_columns (columns m)) s))
    as [c|] eqn:Ec;
    [|apply nth_error_None in Ec; rewrite (rectangular r Hr) in Ec; lia].
  cbn [app]. constructor.
  - unfold raw_cell. rewrite Hio. exact Ec.
  - apply IH. intros s' Hs'. apply B. right. exact Hs'.
Qed.

Lemma cells_by_name (f : C * F -> F) (T : string -> F) (l : list string)
  (xs : list C) (raw : string -> option C) :
  Forall2 (fun s x => raw s = Some x) l xs ->
  map f (combine xs (map T l))
  = flat_map (fun s => match raw s with
                       | Some x => [f (x, T s)]
                       | None => []
                       end) l.
Proof.
  induction 1 as [|s x l xs Hs _ IH]; [reflexivity|].
  simpl. rewrite Hs, IH. reflexivity.
Qed.

(** Row by row, the emitted cells by column name. *)
Lemma normalized_rows :
  log2_cpm as_float column_sum log2 (length names)
    (map (fun r => {| label := label r; cells := pick_cells idx (cells r) |})
         (rows m))
  = map (fun r =>
           {| label := label r;
              cells := flat_map
                         (fun s => match raw_cell m r s with
                                   | Some x =>
                                       [log2 (as_float x
                                              / column_sum (raw_column m s)
                                              * of_Z 1000000 + of_Z 1)]
                                   | None => []
                                   end) names |})
        (rows m).
Proof.
  unfold log2_cpm. rewrite column_totals_named, map_map.
  apply map_ext_in. intros r Hr. cbn [label cells]. f_equal.
  apply (cells_by_name
           (fun xt => log2 (as_float (fst xt) / snd xt * of_Z 1000000 + of_Z 1))
           (fun s => column_sum (raw_column m s)) names _ (raw_cell m r)).
  apply picked_cells, Hr.
Qed.

End aligned.

End normalizer_output.

(** ** The normalizer and column totals *)

(** A count over a total of zero, in binary64. *)
Lemma zero_over_zero (x : float) :
  x = 0%float \/ x = (-0)%float ->
  (x / 0 * float_of_Z 1000000 + float_of_Z 1)%float = nan.
Proof. intros [->| ->]; vm_compute; reflexivity. Qed.

Lemma positive_over_zero (x : float) :
  (0 <? x)%float = true ->
  (x / 0 * float_of_Z 1000000 + float_of_Z 1)%float = infinity.
Proof.
  intros H. rewrite FloatAxioms.ltb_spec in H.
  assert (E : (x / 0)%float = infinity).
  { apply FloatAxioms.Prim2SF_inj. rewrite FloatAxioms.div_spec.
    change (Prim2SF 0%float) with (S754_zero false) in *.
    change (Prim2SF infinity) with (S754_infinity false).
    destruct (Prim2SF x) as [s|s| |s mx ex]; try destruct s;
      try discriminate H; reflexivity. }
  rewrite E. vm_compute. reflexivity.
Qed.

(** C7, as the code has it.  The normalizer never looks at the column
    totals.  With the required columns present and every requested sample a
    data column of the matrix it aligns, it raises nothing and returns the
    normalized table, whatever the totals are: on a rectangular matrix each
    cell is [log2 (count / total * 1000000 + 1)] for the count and the total
    of the column of that name; and where the total is zero the argument of
    the logarithm is NaN for a count of zero and infinite for a positive
    one. *)
Theorem normalizer_ignores_totals
  (C : Type) (as_float : C -> float) (column_sum : list C -> float)
  (log2 : float -> float)
  (counts : CountsFrame C) (metadata : Metadata)
  (annotations : option preprocess_counts.Annotations) :
  let m := annotated annotations counts in
  let sample_ids := map sample_id (md_rows metadata) in
  let scaled x total := (as_float x / total * of_Z 1000000 + of_Z 1)%num in
  mem "gene_id" (columns counts) = true ->
  mem "sample_id" (md_columns metadata) && mem "condition" (md_columns metadata) = true ->
  (forall s, In s sample_ids ->
             mem s (columns m) = true /\ s <> "gene_id"%string) ->
  exists out,
    preprocess_counts.main as_float column_sum log2 counts metadata annotations
    = Ok out
    /\ columns out = "gene_id"%string :: sample_ids
    /\ (well_formed m ->
        rows out
        = map (fun r =>
                 {| label := label r;
                    cells := flat_map
                               (fun s => match raw_cell m r s with
                                         | Some x =>
                                             [log2 (scaled x (column_sum
                                                                (raw_column m s)))]
                                         | None => []
                                         end) sample_ids |})
              (rows m))
    /\ (forall s x,
          column_sum (raw_column m s) = 0%float ->
          (as_float x = 0%float \/ as_float x = (-0)%float ->
           scaled x (column_sum (raw_column m s)) = nan)
          /\ ((0 <? as_float x)%float = true ->
              scaled x (column_sum (raw_column m s)) = infinity)).
Proof.
  intros m sample_ids scaled Hg Hm Hs.
  destruct (normalizer_runs as_float column_sum log2 counts metadata annotations
              Hg Hm Hs) as [out Hout].
  exists out. split; [exact Hout|].
  apply normalizer_ok_inv in Hout as (_ & _ & _ & idx & L & ->).
  fold m sample_ids in L |- *. split; [reflexivity|]. split.
  - intros Hw. cbn [rows]. apply (normalized_rows _ _ _ m sample_ids idx L Hw).
  - intros s x Hz. unfold scaled. rewrite Hz. cbn [fadd fmul fdiv of_Z binary64].
    split; [apply zero_over_zero | apply positive_over_zero].
Qed.

Lemma normalizer_ignores_totals_witness :
  let counts : CountsFrame float :=
    {| columns := ["gene_id"; "S1"; "S2"]%string;
       rows := [{| label := "g1"%string; cells := [0; 3]%float |};
                {| label := "g2"%string; cells := [0; 1]%float |}] |} in
  let metadata :=
    {| md_columns := ["sample_id"; "condition"]%string;
       md_rows := [{| sample_id := "S2"; condition := "A" |};
                   {| sample_id := "S1"; condition := "B" |}] |} in
  exists out,
    preprocess_counts.main (fun x => x) sum (fun x => x) counts metadata None
    = Ok out
    /\ columns out = ["gene_id"; "S2"; "S1"]%string.
Proof.
  intros counts metadata.
  destruct (normalizer_ignores_totals float (fun x => x) sum (fun x => x)
              counts metadata None eq_refl eq_refl) as (out & H & Hc & _).
  - intros s [<-|[<-|[]]]; split; (reflexivity || discriminate).
  - exists out. split; [exact H | exact Hc].
Defined.

(** C7 refuted.  Sample S1 holds 0 in every row.  Whatever [np.log2] is and
    whatever the summation, the normalizer raises nothing; and once the
    total of S1 is zero, what it hands to [np.log2] in that column is NaN. *)
Lemma zero_total_raises_nothing :
  let counts : CountsFrame float :=
    {| columns := ["gene_id"; "S1"; "S2"]%string;
       rows := [{| label := "g1"%string; cells := [0; 3]%float |};
                {| label := "g2"%string; cells := [0; 1]%float |}] |} in
  let metadata :=
    {| md_columns := ["sample_id"; "condition"]%string;
       md_rows := [{| sample_id := "S1"; condition := "A" |};
                   {| sample_id := "S2"; condition := "B" |}] |} in
  raw_column counts "S1" = [0; 0]%float
  /\ ~ (exists (column_sum : list float -> float) (log2 : float -> float) e,
          preprocess_counts.main (fun x => x) column_sum log2 counts metadata None
          = Raise e)
  /\ (forall (column_sum : list float -> float) (log2 : float -> float),
        column_sum [0; 0]%float = 0%float ->
        exists c1 c2,
          preprocess_counts.main (fun x => x) column_sum log2 counts metadata None
          = Ok {| columns := ["gene_id"; "S1"; "S2"]%string;
                  rows := [{| label := "g1"%string; cells := [log2 nan; c1] |};
                           {| label := "g2"%string; cells := [log2 nan; c2] |}] |}).
Proof.
  intros counts metadata. split; [reflexivity|]. split.
  - intros (column_sum & log2 & e & H). cbv in H. discriminate.
  - intros column_sum log2 Hz. eexists. eexists.
    unfold preprocess_counts.main, preprocess_counts.select. simpl.
    unfold preprocess_counts.log2_cpm, preprocess_counts.column_totals,
      preprocess_counts.column. simpl.
    rewrite Hz. reflexivity.
Qed.

(** ** The symbol remap *)

Section remap_facts.
Import preprocess_counts.
Context {F : Type} {num : Number F}.
Local Open Scope string_scope.

Lemma remap_unfold (ann : Annotations) (counts : CountsFrame F) :
  remap_applies ann = true ->
  remap ann counts
  = let relabelled :=
      drop_gene_symbol
        {| columns := columns counts;
           rows := map (fun r => {| label := relabel ann (label r);
                                    cells := cells r |})
                       (rows counts) |} in
    {| columns := columns relabelled;
       rows := drop_duplicates [] (rows relabelled) |}.
Proof.
  unfold remap_applies, remap, relabel, symbol_of. intros H.
  destruct (filter (fun c => mem (normalize_name c) id_aliases) (ann_columns ann))
    as [|id_col ids] eqn:Ei; [discriminate|].
  destruct (filter (fun c => mem (normalize_name c) symbol_aliases) (ann_columns ann))
    as [|sym_col syms] eqn:Es; [discriminate|].
  assert (Hi : In id_col (ann_columns ann)).
  { assert (X : In id_col (id_col :: ids)) by (left; reflexivity).
    rewrite <- Ei in X. apply filter_In in X. apply X. }
  assert (Hs : In sym_col (ann_columns ann)).
  { assert (X : In sym_col (sym_col :: syms)) by (left; reflexivity).
    rewrite <- Es in X. apply filter_In in X. apply X. }
  destruct (index_of_In _ _ Hi) as [i ->].
  destruct (index_of_In _ _ Hs) as [j ->].
  reflexivity.
Qed.

Lemma labels_drop_gene_symbol (counts : CountsFrame F) :
  map label (rows (drop_gene_symbol counts)) = map label (rows counts).
Proof.
  unfold drop_gene_symbol.
  destruct (index_of "gene_symbol" (data_columns (columns counts)));
    [|reflexivity].
  cbn [rows]. rewrite map_map. reflexivity.
Qed.

Lemma filter_filter (A : Type) (f g : A -> bool) (l : list A) :
  filter f (filter g l) = filter (fun x => g x && f x) l.
Proof.
  induction l as [|x l IH]; simpl; [reflexivity|].
  destruct (g x); simpl; [destruct (f x)|]; rewrite IH; reflexivity.
Qed.

(** [drop_duplicates] keeps the labels in order of first appearance. *)
Lemma labels_drop_duplicates (seen : list string) (rs : list (Row F)) :
  map label (drop_duplicates seen rs)
  = filter (fun x => negb (mem x seen)) (unique (map label rs)).
Proof.
  revert seen. induction rs as [|r rs IH]; intros seen; [reflexivity|].
  simpl. destruct (mem (label r) seen) eqn:M; simpl.
  - rewrite IH, filter_filter. apply filter_ext_in. intros x _.
    destruct (String.eqb_spec x (label r)) as [->|Hne]; simpl; [|reflexivity].
    rewrite M. reflexivity.
  - f_equal. rewrite IH, filter_filter. apply filter_ext_in. intros x _.
    unfold mem. cbn [existsb]. apply negb_orb.
Qed.

Lemma filter_true (A : Type) (l : list A) : filter (fun _ => true) l = l.
Proof. induction l as [|x l IH]; simpl; [reflexivity | rewrite IH; reflexivity]. Qed.

Lemma NoDup_unique (l : list string) : NoDup (unique l).
Proof.
  induction l as [|x l IH]; simpl; constructor.
  - intros H. apply filter_In in H as [_ H].
    rewrite String.eqb_refl in H. discriminate.
  - apply NoDup_filter, IH.
Qed.

(** X15.  When the annotation table has an identifier column and a symbol
    column, the relabelled matrix carries each label once: the labels are
    the symbols (or the identifiers without one) in order of first
    appearance, later rows with a label already seen being dropped. *)
Theorem remap_labels_unique (ann : Annotations) (counts : CountsFrame F) :
  remap_applies ann = true ->
  map label (rows (remap ann counts))
  = unique (map (fun r => relabel ann (label r)) (rows counts))
  /\ NoDup (map label (rows (remap ann counts))).
Proof.
  intros H. rewrite (remap_unfold ann counts H). cbv zeta. cbn [rows].
  assert (E : map label
                (drop_duplicates []
                   (rows (drop_gene_symbol
                            {| columns := columns counts;
                               rows := map (fun r => {| label := relabel ann (label r);
                                                        cells := cells r |})
                                           (rows counts) |})))
              = unique (map (fun r => relabel ann (label r)) (rows counts))).
  { rewrite labels_drop_duplicates, labels_drop_gene_symbol. cbn [rows].
    rewrite map_map. cbn [label]. apply filter_true. }
  split; [exact E|]. rewrite E. apply NoDup_unique.
Qed.

Lemma filter_all (A : Type) (f : A -> bool) (l : list A) :
  (forall x, In x l -> f x = true) -> filter f l = l.
Proof.
  induction l as [|x l IH]; intros H; [reflexivity|].
  simpl. rewrite (H x (or_introl eq_refl)). f_equal. apply IH.
  intros y Hy. apply H. right. exact Hy.
Qed.

(** X16.  When it runs, the remap leaves the header alone but for a column
    called gene_symbol, which does not survive it: the column is overwritten
    with the symbols and then dropped. *)
Theorem remap_columns (ann : Annotations) (counts : CountsFrame F) :
  remap_applies ann = true ->
  columns (remap ann counts)
  = filter (fun c => negb (String.eqb c "gene_symbol")) (columns counts).
Proof.
  intros H.
  rewrite (remap_unfold ann counts H). cbv zeta. cbn [columns].
  unfold drop_gene_symbol. cbn [columns].
  destruct (index_of "gene_symbol" (data_columns (columns counts))) eqn:E;
    [reflexivity|].
  cbn [columns]. apply index_of_None in E.
  symmetry. apply filter_all.
  intros c Hc. apply negb_true_iff, String.eqb_neq.
  intros ->. apply E, In_data_columns. split; [exact Hc | discriminate].
Qed.

End remap_facts.

Lemma remap_labels_unique_witness :
  let ann :=
    {| preprocess_counts.ann_columns := ["Gene ID"; "Symbol"]%string;
       preprocess_counts.ann_rows :=
         [[Some "ENSG1"; Some "TP53"]; [Some "ENSG2"; Some "TP53"];
          [Some "ENSG3"; None]]%string |} in
  let counts : CountsFrame Q :=
    {| columns := ["gene_id"; "S1"]%string;
       rows := [{| label := "ENSG1"%string; cells := [1]%Q |};
                {| label := "ENSG2"%string; cells := [2]%Q |};
                {| label := "ENSG3"%string; cells := [3]%Q |}] |} in
  map label (rows (preprocess_counts.remap ann counts)) = ["TP53"; "ENSG3"]%string.
Proof.
  intros ann counts.
  exact (proj1 (remap_labels_unique ann counts eq_refl)).
Defined.

Lemma remap_columns_witness :
  let ann :=
    {| preprocess_counts.ann_columns := ["Gene ID"; "Symbol"]%string;
       preprocess_counts.ann_rows := [[Some "ENSG1"; Some "TP53"]]%string |} in
  let counts : CountsFrame Q :=
    {| columns := ["gene_id"; "gene_symbol"; "S1"]%string;
       rows := [{| label := "ENSG1"%string; cells := [7; 1]%Q |}] |} in
  columns (preprocess_counts.remap ann counts) = ["gene_id"; "S1"]%string.
Proof.
  intros ann counts.
  exact (remap_columns ann counts eq_refl).
Defined.

(** ** The actionable report *)

Section report_facts.
Import differential_expression actionable_report.
Context {F : Type} {num : Number F}.
Local Open Scope string_scope.

Lemma report_ok_inv (diff : DiffFrame F) (actionable : ActionableFrame)
  (p_adj_cut log2_fc_cut : F) merged summary :
  actionable_report.main diff actionable p_adj_cut log2_fc_cut = Ok (merged, summary) ->
  merged = merge (filter (significant p_adj_cut log2_fc_cut) (diff_rows diff))
                 (act_rows actionable)
  /\ summary = {| total_genes_tested := length (diff_rows diff);
                  significant_genes :=
                    length (filter (significant p_adj_cut log2_fc_cut)
                                   (diff_rows diff));
                  actionable_hits := length merged;
                  p_adj_cutoff := p_adj_cut;
                  log2_fc_cutoff := log2_fc_cut |}.
Proof.
  unfold actionable_report.main. intros H.
  destruct (mem "gene_id" (diff_columns diff)); [|discriminate].
  destruct (mem "gene_id" (act_columns actionable)); [|discriminate].
  destruct (mem "p_adj" (diff_columns diff)); [|discriminate].
  destruct (mem "log2_fc" (diff_columns diff)); [|discriminate].
  simpl in H. inversion H. split; reflexivity.
Qed.

Lemma matches_at_most_one (g : string) (rs : list ActionableRow) :
  NoDup (map act_gene rs) ->
  length (filter (fun r => String.eqb g (act_gene r)) rs) <= 1.
Proof.
  induction rs as [|r rs IH]; intros Hnd; simpl; [lia|].
  inversion Hnd as [|? ? Hni Hnd']; subst.
  destruct (String.eqb_spec g (act_gene r)) as [E|Hne]; [|apply IH, Hnd'].
  simpl. rewrite filter_none; [simpl; lia|].
  intros y Hy. apply String.eqb_neq. intros E'. apply Hni.
  rewrite <- E, E'. apply in_map, Hy.
Qed.

Lemma length_merge (filtered : list (ResultRow F)) (rs : list ActionableRow) :
  NoDup (map act_gene rs) -> length (merge filtered rs) <= length filtered.
Proof.
  intros Hnd. unfold merge.
  induction filtered as [|l filtered IH]; simpl; [lia|].
  rewrite length_app, length_map.
  pose proof (matches_at_most_one (gene_id (test l)) rs Hnd). lia.
Qed.

(** X17.  When the actionable list names each gene once, the three counts
    of the summary are nested: the hits are at most the significant genes,
    which are at most the genes tested. *)
Theorem report_counts_nested (diff : DiffFrame F) (actionable : ActionableFrame)
  (p_adj_cut log2_fc_cut : F) merged summary :
  actionable_report.main diff actionable p_adj_cut log2_fc_cut = Ok (merged, summary) ->
  NoDup (map act_gene (act_rows actionable)) ->
  actionable_hits summary <= significant_genes summary
  /\ significant_genes summary <= total_genes_tested summary.
Proof.
  intros H Hnd. apply report_ok_inv in H as [-> ->].
  cbn [actionable_hits significant_genes total_genes_tested]. split.
  - apply length_merge, Hnd.
  - apply filter_length_le.
Qed.

(** X18.  The emitted rows are exactly the pairs of a tested gene that
    passes both cutoffs and an entry of the actionable list for the same
    gene. *)
Theorem report_rows (diff : DiffFrame F) (actionable : ActionableFrame)
  (p_adj_cut log2_fc_cut : F) merged summary :
  actionable_report.main diff actionable p_adj_cut log2_fc_cut = Ok (merged, summary) ->
  forall l r,
    In (l, r) merged
    <-> (In l (diff_rows diff)
         /\ fleb (p_adj l) p_adj_cut = true
         /\ fleb log2_fc_cut (fabs (log2_fc (test l))) = true
         /\ In r (act_rows actionable)
         /\ gene_id (test l) = act_gene r).
Proof.
  intros H l r. apply report_ok_inv in H as [-> _].
  unfold merge. rewrite in_flat_map. split.
  - intros (l' & Hl' & Hin). apply in_map_iff in Hin as (r' & E & Hr').
    inversion E; subst l' r'.
    apply filter_In in Hl' as [Hl Hs]. apply filter_In in Hr' as [Hr Hg].
    unfold significant in Hs. apply andb_true_iff in Hs as [H1 H2].
    apply String.eqb_eq in Hg. auto.
  - intros (Hl & H1 & H2 & Hr & Hg). exists l. split.
    + apply filter_In. split; [exact Hl|].
      unfold significant. rewrite H1, H2. reflexivity.
    + apply in_map, filter_In. split; [exact Hr | apply String.eqb_eq, Hg].
Qed.

End report_facts.

(** With a gene listed twice, the hits outnumber the significant genes. *)
Example repeated_actionable_entry :
  let diff : actionable_report.DiffFrame Q :=
    {| actionable_report.diff_columns :=
         ["gene_id"; "A_mean"; "B_mean"; "log2_fc"; "p_value"; "p_adj"]%string;
       actionable_report.diff_rows :=
         [{| differential_expression.test :=
               {| differential_expression.gene_id := "TP53"%string;
                  differential_expression.mean_a := 5%Q;
                  differential_expression.mean_b := 3%Q;
                  differential_expression.log2_fc := 2%Q;
                  differential_expression.p_value := (1 # 100)%Q |};
             differential_expression.p_adj := (1 # 100)%Q |}] |} in
  let actionable :=
    {| actionable_report.act_columns := ["gene_id"; "drug"]%string;
       actionable_report.act_rows :=
         [{| actionable_report.act_gene := "TP53"%string;
             actionable_report.act_cells := ["drug1"%string] |};
          {| actionable_report.act_gene := "TP53"%string;
             actionable_report.act_cells := ["drug2"%string] |}] |} in
  exists merged summary,
    actionable_report.main diff actionable (5 # 100)%Q 1%Q = Ok (merged, summary)
    /\ actionable_report.significant_genes summary = 1
    /\ actionable_report.actionable_hits summary = 2.
Proof.
  intros diff actionable. eexists. eexists.
  split; [vm_compute; reflexivity|]. split; reflexivity.
Qed.

Lemma report_counts_nested_witness :
  let diff : actionable_report.DiffFrame Q :=
    {| actionable_report.diff_columns :=
         ["gene_id"; "A_mean"; "B_mean"; "log2_fc"; "p_value"; "p_adj"]%string;
       actionable_report.diff_rows :=
         [{| differential_expression.test :=
               {| differential_expression.gene_id := "TP53"%string;
                  differential_expression.mean_a := 5%Q;
                  differential_expression.mean_b := 3%Q;
                  differential_expression.log2_fc := 2%Q;
                  differential_expression.p_value := (1 # 100)%Q |};
             differential_expression.p_adj := (1 # 100)%Q |};
          {| differential_expression.test :=
               {| differential_expression.gene_id := "EGFR"%string;
                  differential_expression.mean_a := 3%Q;
                  differential_expression.mean_b := 5%Q;
                  differential_expression.log2_fc := (- 2)%Q;
                  differential_expression.p_value := (1 # 2)%Q |};
             differential_expression.p_adj := (1 # 2)%Q |}] |} in
  let actionable :=
    {| actionable_report.act_columns := ["gene_id"; "drug"]%string;
       actionable_report.act_rows :=
         [{| actionable_report.act_gene := "TP53"%string;
             actionable_report.act_cells := ["drug1"%string] |};
          {| actionable_report.act_gene := "EGFR"%string;
             actionable_report.act_cells := ["drug2"%string] |}] |} in
  exists merged summary,
    actionable_report.main diff actionable (5 # 100)%Q 1%Q = Ok (merged, summary)
    /\ actionable_report.actionable_hits summary
       <= actionable_report.significant_genes summary
    /\ actionable_report.significant_genes summary
       <= actionable_report.total_genes_tested summary.
Proof.
  intros diff actionable.
  assert (Hnd : NoDup (map actionable_report.act_gene
                           (actionable_report.act_rows actionable))).
  { repeat constructor; simpl; intuition discriminate. }
  eexists. eexists. split; [vm_compute; reflexivity|].
  exact (report_counts_nested diff actionable (5 # 100)%Q 1%Q _ _ eq_refl Hnd).
Defined.

Lemma report_rows_witness :
  let diff : actionable_report.DiffFrame Q :=
    {| actionable_report.diff_columns :=
         ["gene_id"; "A_mean"; "B_mean"; "log2_fc"; "p_value"; "p_adj"]%string;
       actionable_report.diff_rows :=
         [{| differential_expression.test :=
               {| differential_expression.gene_id := "TP53"%string;
                  differential_expression.mean_a := 5%Q;
                  differential_expression.mean_b := 3%Q;
                  differential_expression.log2_fc := 2%Q;
                  differential_expression.p_value := (1 # 100)%Q |};
             differential_expression.p_adj := (1 # 100)%Q |}] |} in
  let actionable :=
    {| actionable_report.act_columns := ["gene_id"; "drug"]%string;
       actionable_report.act_rows :=
         [{| actionable_report.act_gene := "TP53"%string;
             actionable_report.act_cells := ["drug1"%string] |}] |} in
  exists merged summary,
    actionable_report.main diff actionable (5 # 100)%Q 1%Q = Ok (merged, summary)
    /\ forall l r, In (l, r) merged -> In l (actionable_report.diff_rows diff).
Proof.
  intros diff actionable.
  destruct (actionable_report.main diff actionable (5 # 100)%Q 1%Q)
    as [[merged summary]|e] eqn:E; [|discriminate E].
  exists merged, summary. split; [reflexivity|].
  intros l r H.
  apply (report_rows diff actionable (5 # 100)%Q 1%Q merged summary E l r) in H.
  apply H.
Defined.

(** ** NaN in the report (binary64) *)

Lemma float_not_le_nan (x y : float) :
  PrimFloat.is_nan y = true -> (x <=? y)%float = false.
Proof.
  intros H. rewrite is_nan_spec in H. rewrite FloatAxioms.leb_spec.
  destruct (Prim2SF y); try discriminate.
  destruct (Prim2SF x) as [s|s| |s m e]; try destruct s; reflexivity.
Qed.

Lemma float_abs_nan (x : float) :
  PrimFloat.is_nan x = true -> PrimFloat.is_nan (PrimFloat.abs x) = true.
Proof.
  intros H. rewrite is_nan_spec in *. rewrite FloatAxioms.abs_spec.
  destruct (Prim2SF x); try discriminate. reflexivity.
Qed.

(** A row whose adjusted p-value or fold change is NaN passes no cutoff. *)
Lemma nan_never_significant (p_adj_cut log2_fc_cut : float)
  (r : differential_expression.ResultRow float) :
  PrimFloat.is_nan (differential_expression.p_adj r) = true
  \/ PrimFloat.is_nan (differential_expression.log2_fc
                         (differential_expression.test r)) = true ->
  actionable_report.significant p_adj_cut log2_fc_cut r = false.
Proof.
  unfold actionable_report.significant. intros [H|H].
  - cbn [fleb binary64]. rewrite (float_nan_not_le _ _ H). reflexivity.
  - apply andb_false_iff. right. cbn [fleb fabs binary64].
    apply float_not_le_nan, float_abs_nan, H.
Qed.

(** X19.  In binary64, a table of results whose adjusted p-values are all
    NaN yields no significant gene and no hit, whatever the cutoffs. *)
Theorem report_nan_p_adj
  (diff : actionable_report.DiffFrame float)
  (actionable : actionable_report.ActionableFrame)
  (p_adj_cut log2_fc_cut : float) merged summary :
  actionable_report.main diff actionable p_adj_cut log2_fc_cut = Ok (merged, summary) ->
  (forall r, In r (actionable_report.diff_rows diff) ->
             PrimFloat.is_nan (differential_expression.p_adj r) = true) ->
  merged = []
  /\ actionable_report.significant_genes summary = 0
  /\ actionable_report.actionable_hits summary = 0.
Proof.
  intros H Hnan. apply report_ok_inv in H as [-> ->].
  cbn [actionable_report.significant_genes actionable_report.actionable_hits].
  rewrite (filter_none _ (actionable_report.significant p_adj_cut log2_fc_cut)
             (actionable_report.diff_rows diff)).
  - repeat split.
  - intros r Hr. apply nan_never_significant. left. apply Hnan, Hr.
Qed.

Lemma report_nan_p_adj_witness :
  let diff : actionable_report.DiffFrame float :=
    {| actionable_report.diff_columns :=
         ["gene_id"; "A_mean"; "B_mean"; "log2_fc"; "p_value"; "p_adj"]%string;
       actionable_report.diff_rows :=
         [{| differential_expression.test :=
               {| differential_expression.gene_id := "TP53"%string;
                  differential_expression.mean_a := 5%float;
                  differential_expression.mean_b := 3%float;
                  differential_expression.log2_fc := 2%float;
                  differential_expression.p_value := 0x1.47ae147ae147bp-7%float |};
             differential_expression.p_adj := PrimFloat.nan |}] |} in
  let actionable :=
    {| actionable_report.act_columns := ["gene_id"; "drug"]%string;
       actionable_report.act_rows :=
         [{| actionable_report.act_gene := "TP53"%string;
             actionable_report.act_cells := ["drug1"%string] |}] |} in
  exists merged summary,
    actionable_report.main diff actionable 0x1.999999999999ap-5%float 1%float
    = Ok (merged, summary)
    /\ merged = []
    /\ actionable_report.significant_genes summary = 0.
Proof.
  intros diff actionable.
  destruct (actionable_report.main diff actionable 0x1.999999999999ap-5%float 1%float)
    as [[merged summary]|e] eqn:E; [|discriminate E].
  exists merged, summary. split; [reflexivity|].
  destruct (report_nan_p_adj diff actionable _ _ merged summary E) as (H1 & H2 & _).
  - intros r [<-|[]]. reflexivity.
  - split; assumption.
Defined.

(** ** From the engine to the report *)

(** X20.  The two scripts chained, in binary64: when one gene of a
    successful engine run has a NaN raw p-value, the report read from the
    engine's table succeeds with every gene counted as tested, none as
    significant and no hit, whatever the cutoffs and the actionable list. *)
Theorem degenerate_gene_empties_report
  (sqrt : float -> float) (t_two_sided : float -> float -> float)
  (np_argsort pd_argsort : list float -> list nat)
  (counts : CountsFrame float) (metadata : Metadata)
  (tbl : differential_expression.ResultTable float)
  (actionable : actionable_report.ActionableFrame)
  (p_adj_cut log2_fc_cut : float) :
  differential_expression.main sqrt t_two_sided np_argsort pd_argsort counts metadata
  = Ok tbl ->
  (forall a, is_argsort a (np_argsort a) = true) ->
  (forall a, is_index_permutation (pd_argsort a) (length a) = true) ->
  NoDup (map label (rows counts)) ->
  (exists r, In r (differential_expression.table tbl)
             /\ PrimFloat.is_nan (differential_expression.p_value
                                    (differential_expression.test r)) = true) ->
  mem "gene_id" (actionable_report.act_columns actionable) = true ->
  actionable_report.main (actionable_report.written tbl) actionable
    p_adj_cut log2_fc_cut
  = Ok ([], {| actionable_report.total_genes_tested := length (rows counts);
               actionable_report.significant_genes := 0;
               actionable_report.actionable_hits := 0;
               actionable_report.p_adj_cutoff := p_adj_cut;
               actionable_report.log2_fc_cutoff := log2_fc_cut |}).
Proof.
  intros H Hnp Hpd Hnd Hex Hact.
  pose proof (nan_p_value_spoils_table sqrt t_two_sided np_argsort pd_argsort
                counts metadata tbl H Hnp Hex) as Hnan.
  pose proof (table_genes_perm sqrt t_two_sided np_argsort pd_argsort
                counts metadata tbl H Hpd) as P.
  assert (M : forall c, In c ["gene_id"; "p_adj"; "log2_fc"]%string ->
              mem c (actionable_report.diff_columns
                       (actionable_report.written tbl)) = true).
  { intros c Hc. apply mem_In. unfold actionable_report.written.
    cbn [actionable_report.diff_columns].
    destruct Hc as [<-|[<-|[<-|[]]]]; simpl; auto 10. }
  unfold actionable_report.main.
  rewrite !M, Hact by (simpl; auto).
  simpl negb. cbv iota zeta.
  cbn [actionable_report.written actionable_report.diff_rows].
  rewrite (filter_none _ (actionable_report.significant p_adj_cut log2_fc_cut)
             (differential_expression.table tbl))
    by (intros r Hr; apply nan_never_significant; left; apply Hnan, Hr).
  simpl. repeat f_equal.
  apply Permutation_length in P. rewrite !length_map in P. symmetry. exact P.
Qed.

Lemma degenerate_gene_empties_report_witness :
  let counts : CountsFrame float :=
    {| columns := ["gene_id"; "S1"; "S2"; "S3"; "S4"]%string;
       rows := [{| label := "X"%string; cells := [1; 1; 1; 1]%float |};
                {| label := "Y"%string; cells := [1; 2; 5; 7]%float |}] |} in
  let metadata :=
    {| md_columns := ["sample_id"; "condition"]%string;
       md_rows := [{| sample_id := "S1"; condition := "A" |};
                   {| sample_id := "S2"; condition := "A" |};
                   {| sample_id := "S3"; condition := "B" |};
                   {| sample_id := "S4"; condition := "B" |}] |} in
  let actionable :=
    {| actionable_report.act_columns := ["gene_id"; "drug"]%string;
       actionable_report.act_rows :=
         [{| actionable_report.act_gene := "Y"%string;
             actionable_report.act_cells := ["drug1"%string] |}] |} in
  exists tbl,
    differential_expression.main PrimFloat.sqrt (fun _ t => t)
      argsort_stable argsort_stable counts metadata = Ok tbl
    /\ actionable_report.main (actionable_report.written tbl) actionable
         0x1.999999999999ap-5%float 1%float
       = Ok ([], {| actionable_report.total_genes_tested := 2;
                    actionable_report.significant_genes := 0;
                    actionable_report.actionable_hits := 0;
                    actionable_report.p_adj_cutoff := 0x1.999999999999ap-5%float;
                    actionable_report.log2_fc_cutoff := 1%float |}).
Proof.
  intros counts metadata actionable.
  destruct (differential_expression.main PrimFloat.sqrt (fun _ t => t)
              argsort_stable argsort_stable counts metadata) as [tbl|e] eqn:E;
    [|discriminate E].
  exists tbl. split; [reflexivity|].
  apply (degenerate_gene_empties_report PrimFloat.sqrt (fun _ t => t)
           argsort_stable argsort_stable counts metadata tbl actionable _ _ E).
  - exact argsort_stable_binary64.
  - intros a. pose proof (argsort_stable_binary64 a) as H.
    apply andb_true_iff in H. apply H.
  - repeat constructor; simpl; intuition discriminate.
  - vm_compute in E. injection E as <-.
    eexists. split; [right; left; reflexivity | reflexivity].
  - reflexivity.
Defined.

(** ** The point classes of the volcano and MA plots *)

Lemma up_down_exclusive (alpha : float)
  (r : differential_expression.ResultRow float) :
  plot_reports.up alpha r && plot_reports.down alpha r = false.
Proof.
  unfold plot_reports.up, plot_reports.down. cbn [fleb binary64].
  set (p := differential_expression.p_value (differential_expression.test r)).
  set (fc := differential_expression.log2_fc (differential_expression.test r)).
  destruct (PrimFloat.leb p alpha); [|reflexivity]. simpl andb.
  match goal with
  | |- (PrimFloat.leb ?a fc && PrimFloat.leb fc ?b) = false =>
      destruct (PrimFloat.leb a fc) eqn:U; [|reflexivity];
      destruct (PrimFloat.leb fc b) eqn:D; [|reflexivity];
      pose proof (float_leb_trans _ _ _ U D) as X; vm_compute in X;
      discriminate X
  end.
Qed.

(** X21.  In the volcano and MA plots every row of the results is drawn
    exactly once, as Down, Up or NS: no gene can be both Up and Down. *)
Theorem plot_classes_partition (alpha : float)
  (df : list (differential_expression.ResultRow float)) :
  Permutation df (plot_reports.drawn_down alpha df
                  ++ plot_reports.drawn_up alpha df
                  ++ plot_reports.drawn_ns alpha df).
Proof.
  unfold plot_reports.drawn_down, plot_reports.drawn_up, plot_reports.drawn_ns.
  induction df as [|r df IH]; [constructor|].
  pose proof (up_down_exclusive alpha r) as X.
  cbn [filter].
  destruct (plot_reports.up alpha r), (plot_reports.down alpha r);
    try discriminate X; simpl.
  - apply Permutation_cons_app. exact IH.
  - constructor. exact IH.
  - rewrite app_assoc. apply Permutation_cons_app. rewrite <- app_assoc. exact IH.
Qed.
